(** * The optimizer of HomebrewNLP-MTF: gradient accumulation, update rules,
      two-head MGDA balancing and the reverse traversal bookkeeping.

    Shallow embedding of [src/optimizer/__init__.py].  Floating-point scalars
    are modelled as exact rationals [Q] (so rounding, infinities and NaN are
    outside the model, but for the cast of the step counter, whose rounding
    is modelled); a tensor is the flat list of its entries.  The weight
    standardisation arithmetic needs a square root and is modelled a second
    time over the reals in [Module Standardisation].  Beside the optimizer,
    [CapturedObject] of train.py and [split_files] and [_get_skip_index] of
    inputs.py are embedded. *)

From stdpp Require Import base gmap sets list strings.
From stdpp Require Import sorting.
From Stdlib Require Import Ascii String ZArith QArith Qabs Lia Lqa.
From Stdlib Require Import Reals Qreals Lra.

Local Open Scope Z_scope.

(** ** Strings: the two Python string operations the optimizer uses *)

(** [needle in hay] of Python. *)
Fixpoint contains (needle hay : string) : bool :=
  String.prefix needle hay ||
  match hay with
  | EmptyString => false
  | String _ rest => contains needle rest
  end.

(** [s.split(sep)] of Python for a one-character separator: the result is
    never empty. *)
Fixpoint split (sep : ascii) (s : string) : list string :=
  match s with
  | EmptyString => [EmptyString]
  | String c rest =>
      if Ascii.eqb c sep then EmptyString :: split sep rest
      else match split sep rest with
           | [] => [String c EmptyString]
           | w :: ws => String c w :: ws
           end
  end.

(** ** Tensors and the mtf_wrapper operations on them *)

Definition tensor := list Q.

Definition tensor_eq (a b : tensor) : Prop := Forall2 Qeq a b.

Definition add (a b : tensor) : tensor := zip_with Qplus a b.
Definition sub (a b : tensor) : tensor := zip_with Qminus a b.
Definition multiply (c : Q) (a : tensor) : tensor := map (Qmult c) a.
Definition negative (a : tensor) : tensor := map Qopp a.
Definition identity (a : tensor) : tensor := a.
Definition zeros_like (a : tensor) : tensor := map (fun _ => 0%Q) a.
Definition reduce_sum (a : tensor) : Q := foldr Qplus 0%Q a.

Definition to_fp32 (b : bool) : Q := if b then 1%Q else 0%Q.
Definition greater_equal (a b : Q) : bool := Qle_bool b a.
Definition equal (a b : Q) : bool := Qeq_bool a b.

(** The exact inverse of a non-zero argument. At zero the source yields an
    infinity, and a NaN once that is multiplied by a zero mask; the rationals
    have neither, so the statements about [mgda_gamma] are made where the
    denominator is not zero. *)
Definition reciprocal (x : Q) : Q := Qinv x.

(** ** Two-head MGDA balancing (get_optimizer, lines 116-134) *)

Definition min_gamma : Q := 1 # 1000.

(** The denominator as the source writes it:
    [add(v1v1, v2v2) - multiply(-2, v1v2)]. *)
Definition mgda_denominator (v1v1 v1v2 v2v2 : Q) : Q :=
  ((v1v1 + v2v2) - (-2) * v1v2)%Q.

Definition mgda_gamma (v1v1 v1v2 v2v2 : Q) : Q :=
  let gamma := ((1 - min_gamma) * to_fp32 (greater_equal v1v2 v1v1))%Q in
  let gamma := (gamma + min_gamma * to_fp32 (greater_equal v1v2 v2v2)
                         * to_fp32 (equal gamma 0))%Q in
  let gamma := (gamma + (-1) * to_fp32 (equal gamma 0)
                         * (v1v2 + - v2v2)
                         * reciprocal (mgda_denominator v1v1 v1v2 v2v2))%Q in
  gamma.

(** The loss a head is differentiated for: the third entry of the loss list
    is replaced by the blend of the first two under "mgda". The three
    accumulators have shape [head_dim] and are summed first. *)
Definition head_loss (mgda : bool) (loss_idx : nat) (loss_list : list Q)
    (loss_1__loss_1 loss_1__loss_2 loss_2__loss_2 : tensor) : option Q :=
  if mgda && Nat.eqb loss_idx 2 then
    let v1v1 := reduce_sum loss_1__loss_1 in
    let v1v2 := reduce_sum loss_1__loss_2 in
    let v2v2 := reduce_sum loss_2__loss_2 in
    let gamma := mgda_gamma v1v1 v1v2 v2v2 in
    l0 ← loss_list !! 0%nat;
    l1 ← loss_list !! 1%nat;
    Some (l0 * gamma + l1 * (1 - gamma))%Q
  else loss_list !! loss_idx.

(** The blend coefficient as the specification words it. *)
Definition clamp (x lo hi : Q) : Q :=
  if Qle_bool x lo then lo else if Qle_bool hi x then hi else x.

Definition gamma_spec (v1v1 v1v2 v2v2 : Q) : Q :=
  if Qle_bool v1v1 v1v2 then (1 - min_gamma)%Q
  else if Qle_bool v2v2 v1v2 then min_gamma
  else clamp ((v2v2 - v1v2) / (v1v1 + v2v2 - 2 * v1v2))%Q
             min_gamma (1 - min_gamma)%Q.

(** ** Data model *)

Record Dimension := { dim_name : string; dim_size : Z }.

(** A trainable variable ([mtf.Variable]): display name, [shape.dims] and stored value. *)
Record MtfVariable := {
  var_name : string;
  var_dims : list Dimension;
  var_value : tensor }.

(** [np.prod([d.size for d in dims])], also [shape.size]. *)
Definition shape_size (dims : list Dimension) : Z :=
  foldr Z.mul 1 (map dim_size dims).

(** The fields of [ModelParameter] the optimizer reads; [name_to_variable]
    holds the keys of [params.mesh.graph.name_to_variable]. *)
Record ModelParameter := {
  optimizer : string;
  rezero_lr_multiplier : Q;
  feature_dims : list Dimension;
  weight_decay : Q;
  weight_standardisation : bool;
  scale_by_depth : bool;
  n_blocks : Z;
  grad_accumulation : Z;
  opt_beta1 : Q;
  opt_beta2 : Q;
  multi_loss_strategy : string;
  name_to_variable : gset string }.

(** What an assignment writes to: the variable, its accumulation buffer, or
    a state buffer an optimizer of the chain owns. *)
Inductive slot := SlotVar | SlotGradBuffer | SlotState (key : string).

(** The update operations, named as the wrappers that build them. *)
Inductive Assign :=
| assign (s : slot) (t : tensor)
| assign_add (s : slot) (t : tensor)
| assign_sub (s : slot) (t : tensor).

Record OptimizerCtx := {
  params : ModelParameter;
  var : MtfVariable;
  grad : tensor;
  grad_buffer : option tensor;
  update_ops : list Assign;
  learning_rate : Q }.

Definition set_grad (ctx : OptimizerCtx) (g : tensor) : OptimizerCtx :=
  {| params := params ctx; var := var ctx; grad := g;
     grad_buffer := grad_buffer ctx; update_ops := update_ops ctx;
     learning_rate := learning_rate ctx |}.

Definition set_grad_buffer (ctx : OptimizerCtx) (b : option tensor) : OptimizerCtx :=
  {| params := params ctx; var := var ctx; grad := grad ctx;
     grad_buffer := b; update_ops := update_ops ctx;
     learning_rate := learning_rate ctx |}.

Definition append_ops (ctx : OptimizerCtx) (ops : list Assign) : OptimizerCtx :=
  {| params := params ctx; var := var ctx; grad := grad ctx;
     grad_buffer := grad_buffer ctx; update_ops := update_ops ctx ++ ops;
     learning_rate := learning_rate ctx |}.

(** An optimizer of the chain: it reads the context and its string
    arguments, returns the new gradient and the assignments to the state
    buffers it owns. *)
Definition optimizer_fn : Type :=
  OptimizerCtx -> list string -> tensor * list (string * tensor).

Definition state_ops (l : list (string * tensor)) : list Assign :=
  map (fun kt => assign (SlotState kt.1) kt.2) l.

(** ** gradient_accumulation (lines 27-28) *)

Definition gradient_accumulation (ctx : OptimizerCtx) : option OptimizerCtx :=
  buf ← grad_buffer ctx;
  Some (append_ops ctx [assign_add SlotGradBuffer (add (grad ctx) (identity buf))]).

(** ** update (lines 31-74) *)

(** Line 65: [var.value - ctx.grad]. *)
Definition residual (v : MtfVariable) (g : tensor) : tensor :=
  sub (var_value v) g.

(** The inner [einsum] of line 72: the mean of the squares,
    [sum(val * val * (1 / val.size))]. *)
Definition mean_square (v : MtfVariable) (val : tensor) : Q :=
  let size := inject_Z (shape_size (var_dims v)) in
  reduce_sum (map (fun x => x * x * (1 / size))%Q val).

Section Update.
(** Parts of the repository that are not in this file of the source:
    the table [OPTIMIZERS] of optimizers.py, [feature_dims_used] and
    [get_fan_in] of utils_mtf.py, and the two irrational primitives of the
    weight standardisation, [rsqrt_eps] of mtf_wrapper.py and the Python
    power [x ** 0.5]. *)
Variable OPTIMIZERS : string -> option optimizer_fn.
Variable feature_dims_used : ModelParameter -> MtfVariable -> bool.
Variable get_fan_in : ModelParameter -> MtfVariable -> list Dimension.
Variable rsqrt_eps : Q -> Q.
Variable pow_half : Q -> Q.

(** Lines 37-39: the buffered gradient replaces the current one and the
    buffer is reset. *)
Definition load_grad_buffer (ctx : OptimizerCtx) : OptimizerCtx :=
  match grad_buffer ctx with
  | Some buf =>
      let ctx := set_grad ctx (identity buf) in
      append_ops ctx [assign SlotGradBuffer (zeros_like (grad ctx))]
  | None => ctx
  end.

(** Lines 42-43: one token [name:arg:...] of the chain; an unknown name
    is a KeyError. *)
Definition run_optimizer (ctx : OptimizerCtx) (token : string) : option OptimizerCtx :=
  match split ":" token with
  | opt :: args =>
      f ← OPTIMIZERS opt;
      let '(g, st) := f ctx args in
      Some (set_grad (append_ops ctx (state_ops st)) g)
  | [] => None
  end.

(** Lines 41-43. *)
Definition run_chain (ctx : OptimizerCtx) : option OptimizerCtx :=
  foldl (fun acc token => ctx ← acc; run_optimizer ctx token) (Some ctx)
        (split "-" (optimizer (params ctx))).

(** Lines 45-46. *)
Definition rezero_scale (ctx : OptimizerCtx) : OptimizerCtx :=
  if contains "rezero" (var_name (var ctx))
  then set_grad ctx (multiply (rezero_lr_multiplier (params ctx)) (grad ctx))
  else ctx.

(** Lines 48-54. *)
Definition large_tensor (p : ModelParameter) (v : MtfVariable) : bool :=
  let name := var_name v in
  let ndims := List.length (var_dims v) in
  let features_used := feature_dims_used p v in
  let large := features_used && (List.length (feature_dims p) <? ndims)%nat in
  let large := large || (negb features_used && (2 <=? ndims)%nat) in
  let large := large && (1 <? shape_size (var_dims v)) in
  let large := large && negb (contains "embed" name) in
  let large := large && (negb (contains "input" name)
                         || contains "lang_in" name || contains "vid_in" name) in
  let large := large && (negb (contains "output" name)
                         || contains "lang_out" name || contains "vid_out" name) in
  large.

(** Lines 56-59: [einsum] of two scalars and the value is the entrywise
    product. *)
Definition decay (ctx : OptimizerCtx) : OptimizerCtx :=
  let p := params ctx in
  if large_tensor p (var ctx) && negb (Qle_bool (weight_decay p) 0)
  then set_grad ctx
         (add (grad ctx)
              (map (fun x => weight_decay p * x * learning_rate ctx)%Q
                   (var_value (var ctx))))
  else ctx.

(** Lines 66-71. The sizes are numpy int64 in the source; they are
    unbounded integers here, which is the same as long as [size ** 2] stays
    below [2 ^ 63]. *)
Definition target_variance (p : ModelParameter) (v : MtfVariable) : Q :=
  let fan_in_size := shape_size (get_fan_in p v) in
  let size := shape_size (var_dims v) in
  let max_fan := inject_Z (Z.max fan_in_size (size / fan_in_size)) in
  let size := inject_Z size in
  let variance := ((1 - 1 / max_fan) / size ^ 2 + 1 / max_fan - 2 / size
                   + 1 / max_fan)%Q in
  if scale_by_depth p then (variance * inject_Z (n_blocks p))%Q else variance.

(** Lines 72-73, with the two irrational primitives as given. *)
Definition standardised (p : ModelParameter) (v : MtfVariable) (g : tensor) : tensor :=
  let val := residual v g in
  map (fun x => x * rsqrt_eps (mean_square v val)
                 * pow_half (target_variance p v))%Q val.

(** Lines 61-74. *)
Definition write_back (ctx : OptimizerCtx) : OptimizerCtx :=
  let p := params ctx in
  if negb (large_tensor p (var ctx)) || negb (weight_standardisation p)
  then append_ops ctx [assign_sub SlotVar (grad ctx)]
  else append_ops ctx [assign SlotVar (standardised p (var ctx) (grad ctx))].

Definition update (ctx : OptimizerCtx) : option OptimizerCtx :=
  ctx ← run_chain (load_grad_buffer ctx);
  Some (write_back (decay (rezero_scale ctx))).

End Update.

(** ** get_optimizer: step indicator and momentum coefficients (lines 98-104) *)


(** [tf.cast] of an integer to the floating-point type [dtype]: rounding
    to the nearest value with [dtype] significant bits, ties to the even
    significand. An integer of magnitude below [2 ^ dtype] is kept. The
    step counter is an int64, far below the largest finite float. *)
Definition tf_cast (dtype z : Z) : Z :=
  let a := Z.abs z in
  let shift := Z.log2 a + 1 - dtype in
  if shift <=? 0 then z
  else
    let q := a / 2 ^ shift in
    let r := a mod 2 ^ shift in
    let half := 2 ^ (shift - 1) in
    let q := if (half <? r) || ((r =? half) && Z.odd q) then q + 1 else q in
    Z.sgn z * (q * 2 ^ shift).

(** [mod] on two integer-valued floats; the window is a positive integer. *)
Definition mod_float (a b : Z) : Q := inject_Z (a mod b).

(** Line 98: [manual_step + 1] is cast to [dtype] before the modulo. The
    window [grad_accumulation * 1.] goes through import_mtf, which is not in
    the source at hand; it is taken to arrive as a tensor of the same type,
    as the two operands of [mod] must agree. *)
Definition step (dtype manual_step : Z) (p : ModelParameter) : Q :=
  to_fp32 (equal (mod_float (tf_cast dtype (manual_step + 1))
                            (tf_cast dtype (grad_accumulation p))) 0).





(** ** get_optimizer: the downstream set (lines 136-144) *)

(** A graph operation; tensors are identified by a number. A trainable
    variable is an operation too, its first output is the variable tensor. *)
Record Operation := {
  op_inputs : list nat;
  op_outputs : list nat;
  has_gradient : bool }.

(** [xs = [x.outputs[0] for x in trainable_variables]]. *)
Definition trainable_xs (trainable_variables : list Operation) : option (list nat) :=
  mapM (fun x => op_outputs x !! 0%nat) trainable_variables.

Definition downstream_step (downstream : gset nat) (op : Operation) : gset nat :=
  if has_gradient op
     && bool_decide (list_to_set (op_inputs op) ∩ downstream ≠ (∅ : gset nat))
  then downstream ∪ list_to_set (op_outputs op)
  else downstream.

Definition compute_downstream (operations : list Operation) (xs : list nat) : gset nat :=
  foldl downstream_step (list_to_set xs) operations.

(** One set per loss head; a head is given by the operations of its graph. *)
Definition head_downstreams (heads : list (list Operation))
    (trainable_variables : list Operation) : option (list (gset nat)) :=
  mapM (fun operations =>
          xs ← trainable_xs trainable_variables;
          Some (compute_downstream operations xs)) heads.

(** ** get_optimizer: the gradient map along the reverse traversal (lines 146-164) *)

(** A gradient tensor, with the number of inputs of the operation that
    produced it ([len(grad.operation.inputs)]). *)
Record GradTensor := { grad_id : nat; grad_operation_inputs : nat }.

(** [tensor_to_gradient]: tensor to the mutable triple
    [[count, count, gradient]]. *)
Abbreviation GradientMap := (gmap nat (nat * nat * GradTensor)).

(** The body of the loop over [op.outputs] (lines 152-161). *)
Definition collect_output (acc : list (option GradTensor) * GradientMap) (out : nat)
    : list (option GradTensor) * GradientMap :=
  let '(grad_outputs, tensor_to_gradient) := acc in
  match tensor_to_gradient !! out with
  | None => (grad_outputs ++ [None], tensor_to_gradient)
  | Some (c0, c1, g) =>
      let c0 := S c0 in
      (grad_outputs ++ [Some g],
       if (c0 =? grad_operation_inputs g)%nat
       then delete out tensor_to_gradient
       else <[out := (c0, c1, g)]> tensor_to_gradient)
  end.

Definition collect_grad_outputs (op : Operation) (tensor_to_gradient : GradientMap)
    : list (option GradTensor) * GradientMap :=
  foldl collect_output ([], tensor_to_gradient) (op_outputs op).

(** Line 163. *)
Definition skipped (op : Operation) (grad_outputs : list (option GradTensor))
    (downstream : gset nat) : bool :=
  negb (has_gradient op)
  || negb (existsb (fun g => bool_decide (is_Some g)) grad_outputs)
  || negb (bool_decide (list_to_set (op_inputs op) ∩ downstream ≠ (∅ : gset nat))).

(** Line 146: the map the traversal of a loss starts from. *)
Definition initial_gradients (loss : nat) (loss_grad : GradTensor) : GradientMap :=
  {[ loss := (0%nat, 0%nat, loss_grad) ]}.

(** ** get_optimizer: accumulate or update (lines 169-173) *)

Inductive step_fn := fn_gradient_accumulation | fn_update.

(** [gradient_accumulation if fn == "accumulate" else update]. *)
Definition select_fn (fn : string) : step_fn :=
  if String.eqb fn "accumulate" then fn_gradient_accumulation else fn_update.

Definition double_quote : string := String (ascii_of_nat 34) EmptyString.

(** The f-string of line 170, character by character. *)
Definition full_name (scope : string) (ctx : OptimizerCtx) : string :=
  scope +:+ "/f" +:+ double_quote +:+ var_name (var ctx) +:+ "/"
        +:+ optimizer (params ctx) +:+ "/grad_accumulation".

(** Modelled from the spec: backend.variable is not in the source at hand;
    the accumulation buffer is allocated on first use, zero-filled and of the
    shape of its variable, and persists across steps. *)
Definition variable (stored : option tensor) (v : MtfVariable) : tensor :=
  match stored with
  | Some buf => buf
  | None => zeros_like (var_value v)
  end.

Section Step.
Variable OPTIMIZERS : string -> option optimizer_fn.
Variable feature_dims_used : ModelParameter -> MtfVariable -> bool.
Variable get_fan_in : ModelParameter -> MtfVariable -> list Dimension.
Variable rsqrt_eps : Q -> Q.
Variable pow_half : Q -> Q.

(** Lines 171-172. *)
Definition attach_grad_buffer (scope fn : string) (stored : option tensor)
    (ctx : OptimizerCtx) : OptimizerCtx :=
  if String.eqb fn "accumulate"
     || bool_decide (full_name scope ctx ∈ name_to_variable (params ctx))
  then set_grad_buffer ctx (Some (variable stored (var ctx)))
  else ctx.

(** Line 173. *)
Definition run_fn (f : step_fn) (ctx : OptimizerCtx) : option OptimizerCtx :=
  match f with
  | fn_gradient_accumulation => gradient_accumulation ctx
  | fn_update =>
      update OPTIMIZERS feature_dims_used get_fan_in rsqrt_eps pow_half ctx
  end.

Definition apply_fn (scope fn : string) (stored : option tensor)
    (ctx : OptimizerCtx) : option OptimizerCtx :=
  run_fn (select_fn fn) (attach_grad_buffer scope fn stored ctx).

End Step.

(** ** Running the update operations of one variable *)

(** The persistent tensors of one variable: its value, its accumulation
    buffer once allocated, and the state buffers of the chain. *)
Record VarStore := {
  stored_value : tensor;
  stored_buffer : option tensor;
  stored_state : gmap string tensor }.

Definition read_slot (st : VarStore) (s : slot) (like : tensor) : tensor :=
  match s with
  | SlotVar => stored_value st
  | SlotGradBuffer => default (zeros_like like) (stored_buffer st)
  | SlotState k => default (zeros_like like) (stored_state st !! k)
  end.

Definition write_slot (st : VarStore) (s : slot) (t : tensor) : VarStore :=
  match s with
  | SlotVar =>
      {| stored_value := t; stored_buffer := stored_buffer st;
         stored_state := stored_state st |}
  | SlotGradBuffer =>
      {| stored_value := stored_value st; stored_buffer := Some t;
         stored_state := stored_state st |}
  | SlotState k =>
      {| stored_value := stored_value st; stored_buffer := stored_buffer st;
         stored_state := <[k := t]> (stored_state st) |}
  end.

Definition run_assign (st : VarStore) (a : Assign) : VarStore :=
  match a with
  | assign s t => write_slot st s t
  | assign_add s t => write_slot st s (add (read_slot st s t) t)
  | assign_sub s t => write_slot st s (sub (read_slot st s t) t)
  end.

Definition run_ops (st : VarStore) (ops : list Assign) : VarStore :=
  foldl run_assign st ops.

Section TrainStep.
Variable OPTIMIZERS : string -> option optimizer_fn.
Variable feature_dims_used : ModelParameter -> MtfVariable -> bool.
Variable get_fan_in : ModelParameter -> MtfVariable -> list Dimension.
Variable rsqrt_eps : Q -> Q.
Variable pow_half : Q -> Q.
Variables (scope : string) (p : ModelParameter) (lr : Q).
Variables (name : string) (dims : list Dimension).

(** The context [get_optimizer] builds for a variable whose gradient [g]
    is final, from the stored tensors. *)
Definition make_ctx (st : VarStore) (g : tensor) : OptimizerCtx :=
  {| params := p;
     var := {| var_name := name; var_dims := dims; var_value := stored_value st |};
     grad := g; grad_buffer := None; update_ops := []; learning_rate := lr |}.

(** One step in mode [fn]: build the update operations and run them. *)
Definition train_step (fn : string) (st : VarStore) (g : tensor) : option VarStore :=
  ctx ← apply_fn OPTIMIZERS feature_dims_used get_fan_in rsqrt_eps pow_half
          scope fn (stored_buffer st) (make_ctx st g);
  Some (run_ops st (update_ops ctx)).

(** [k] steps in "accumulate" mode with the same gradient. *)
Fixpoint accumulate_steps (k : nat) (st : VarStore) (g : tensor) : option VarStore :=
  match k with
  | O => Some st
  | S k => st ← train_step "accumulate" st g; accumulate_steps k st g
  end.

End TrainStep.

(** ** Weight standardisation over the reals (lines 65-74) *)

Module Standardisation.

(** Modelled from the spec: rsqrt_eps of mtf_wrapper.py is not in the
    source at hand; it is the reciprocal square root guarded by an epsilon
    added under the root. *)
Definition rsqrt_eps (epsilon x : R) : R := (/ sqrt (x + epsilon))%R.

(** [x ** 0.5] on a non-negative float. *)
Definition pow_half (x : R) : R := sqrt x.

(** Lines 72-73: the rational residual and its mean square are those of
    [update]; only the root and its reciprocal are real-valued. *)
Definition standardised_real (epsilon : R)
    (get_fan_in : ModelParameter -> MtfVariable -> list Dimension)
    (p : ModelParameter) (v : MtfVariable) (g : tensor) : list R :=
  let val := residual v g in
  map (fun x => Q2R x * rsqrt_eps epsilon (Q2R (mean_square v val))
                 * pow_half (Q2R (target_variance get_fan_in p v)))%R val.

End Standardisation.

(** ** Auxiliary predicates of the statements *)

(** What the chain may change in a context: the gradient, and the update
    operations, to which it appends assignments to optimizer state only. *)
Definition chain_step (ctx ctx' : OptimizerCtx) : Prop :=
  params ctx' = params ctx /\ var ctx' = var ctx
  /\ grad_buffer ctx' = grad_buffer ctx
  /\ learning_rate ctx' = learning_rate ctx
  /\ exists st, update_ops ctx' = update_ops ctx ++ state_ops st.

(** Modelled from the spec: the table [OPTIMIZERS] of optimizers.py is not
    in the source at hand; these are the optimizer names the specification
    uses in its chains. *)
Definition named_optimizers : list string := ["clip"; "adam"; "lamb"; "sgd"].

(** The seven substrings of the display name that [update] tests to
    decide the regularisation class. *)
Definition role_substrings : list string :=
  ["embed"; "input"; "lang_in"; "vid_in"; "output"; "lang_out"; "vid_out"].

(** Every token of the configured chain names an optimizer of the table,
    so that [update] meets no KeyError. *)
Definition chain_known (OPTIMIZERS : string -> option optimizer_fn)
    (p : ModelParameter) : Prop :=
  Forall (fun token => is_Some (OPTIMIZERS (hd EmptyString (split ":" token))))
         (split "-" (optimizer p)).

(** What a present entry becomes when its tensor is visited: the first
    counter is incremented and the entry goes when the counter equals the
    number of inputs of the operation that produced the gradient. *)
Definition visited_entry (e : nat * nat * GradTensor) : option (nat * nat * GradTensor) :=
  let '(c0, c1, g) := e in
  if (S c0 =? grad_operation_inputs g)%nat then None else Some (S c0, c1, g).

(** The mean square of line 72 taken of a real-valued tensor, with the same
    rational scalar [1 / val.size]. *)
Definition mean_square_real (v : MtfVariable) (val : list R) : R :=
  let scale := Q2R (1 / inject_Z (shape_size (var_dims v))) in
  foldr Rplus 0%R (map (fun x => x * x * scale)%R val).

(** The variance of the entries of a tensor as the specification words it:
    the mean of the squared deviations from the mean of the entries. *)
Definition variance_spec (v : MtfVariable) (val : tensor) : Q :=
  let size := inject_Z (shape_size (var_dims v)) in
  let mean := (reduce_sum val / size)%Q in
  reduce_sum (map (fun x => (x - mean) * (x - mean) / size)%Q val).

(** The loss each head is differentiated for, in the order of the loop over
    [enumerate(loss_list)] (lines 116-134). *)
Definition head_losses (mgda : bool) (loss_list : list Q)
    (loss_1__loss_1 loss_1__loss_2 loss_2__loss_2 : tensor) : option (list Q) :=
  mapM (fun loss_idx =>
          head_loss mgda loss_idx loss_list
                    loss_1__loss_1 loss_1__loss_2 loss_2__loss_2)
       (seq 0 (List.length loss_list)).

(** The operations are in construction order: whatever an operation reads
    is produced by an operation placed strictly before it, if by any. *)
Definition construction_ordered (operations : list Operation) : Prop :=
  forall i j op op' x,
    operations !! i = Some op -> operations !! j = Some op' ->
    x ∈ op_inputs op -> x ∈ op_outputs op' -> (j < i)%nat.

(** ** train.py: CapturedObject (lines 40-63) *)

(** What a call does: it returns, or it raises the named exception. *)
Inductive outcome (A : Type) : Type :=
| returned (a : A)
| raised (exception : string).
Arguments returned {A} a.
Arguments raised {A} exception.

Module CapturedObject.

(** The two attributes; [None] is the Python value the constructor
    stores. *)
Record t (A : Type) := { _object : option A; _captured : bool }.
Arguments _object {A} _.
Arguments _captured {A} _.

Definition init {A : Type} : t A := {| _object := None; _captured := false |}.

Definition capture {A : Type} (self : t A) (o : A) : outcome (t A) :=
  if _captured self then raised "RuntimeError"
  else returned {| _object := Some o; _captured := true |}.

Definition get {A : Type} (self : t A) : outcome (option A) :=
  if negb (_captured self) then raised "RuntimeError"
  else returned (_object self).

(** The object after the given attempts to capture, in order; an attempt
    that raises leaves the object as it was. *)
Definition after_captures {A : Type} (os : list A) : t A :=
  foldl (fun self o => match capture self o with
                       | returned self' => self'
                       | raised _ => self
                       end) init os.

End CapturedObject.

(** ** inputs.py: split_files (lines 15-23) *)

(** [sorted(filenames)]: strings in lexicographic order of their
    characters. *)
Definition sorted (filenames : list string) : list string :=
  merge_sort (fun a b => Is_true (String.leb a b)) filenames.

(** [l[start::step]] for a start that is not negative and a positive
    step. *)
Fixpoint slice_from (fuel : nat) {A : Type} (l : list A) (start step : nat) : list A :=
  match fuel with
  | O => []
  | S fuel =>
      match l !! start with
      | Some x => x :: slice_from fuel l (start + step) step
      | None => []
      end
  end.

Section SplitFiles.
(** [random.seed(seed); random.shuffle(files)]: the generator is not
    modelled, the shuffled list is a function of the seed and the list. *)
Variable shuffle : Z -> list string -> list string.

(** [filenames] is what [tf.io.gfile.glob(path)] returned; the slice index
    and count are not negative. *)
Definition split_files (filenames : list string) (slice_index slice_count : nat)
    (seed : Z) : outcome (list string) :=
  match filenames with
  | [] => raised "ValueError"
  | _ =>
      let files := sorted filenames in
      let files := if (seed =? 0)%Z then files else shuffle seed files in
      match slice_count with
      | O => raised "ValueError"
      | _ => returned (slice_from (List.length files) files slice_index slice_count)
      end
  end.

End SplitFiles.

(** ** inputs.py: _get_skip_index (lines 386-406) *)

Section SkipIndex.
(** [_get_number_of_documents] reads the count off the file name with a
    regular expression, [_get_number_of_documents_by_iteration] counts the
    records of the file; neither is modelled further. *)
Variable _get_number_of_documents : string -> option Z.
Variable _get_number_of_documents_by_iteration : string -> Z.

(** The local variables of the loop; [skip_idx] and [remainder] are unbound
    until first assigned. *)
Record skip_state := {
  prev_cumsum : Z;
  cumsum : Z;
  global_n_documents : option Z;
  skip_idx : option nat;
  remainder : option Z }.

(** The body of the loop for the item [(count, f)]; the flag tells whether
    it ended in [break]. *)
Definition skip_body (n_batches : Z) (st : skip_state) (count : nat) (f : string)
    : skip_state * bool :=
  let prev := cumsum st in
  let '(cum, glob) :=
    match _get_number_of_documents f with
    | Some k => (cumsum st + k, global_n_documents st)
    | None =>
        match global_n_documents st with
        | None =>
            let g := _get_number_of_documents_by_iteration f in
            (cumsum st + g, Some g)
        | Some g => (cumsum st + g, Some g)
        end
    end in
  if cum =? n_batches then
    ({| prev_cumsum := prev; cumsum := cum; global_n_documents := glob;
        skip_idx := Some (count + 1)%nat; remainder := Some 0 |}, false)
  else if n_batches <? cum then
    ({| prev_cumsum := prev; cumsum := cum; global_n_documents := glob;
        skip_idx := Some count; remainder := Some (n_batches - prev) |}, true)
  else
    ({| prev_cumsum := prev; cumsum := cum; global_n_documents := glob;
        skip_idx := skip_idx st; remainder := remainder st |}, false).

(** One pass over [enumerate(all_files)], from the given items on. *)
Fixpoint skip_pass (n_batches : Z) (items : list (nat * string)) (st : skip_state)
    : skip_state * bool :=
  match items with
  | [] => (st, false)
  | (count, f) :: items =>
      let '(st, broke) := skip_body n_batches st count f in
      if broke then (st, true) else skip_pass n_batches items st
  end.

Definition enumerate (all_files : list string) : list (nat * string) :=
  zip (seq 0 (List.length all_files)) all_files.

(** [cycle] repeats the pass; [fuel] bounds the number of passes, [None]
    says that the loop is still running when the fuel is spent. *)
Fixpoint skip_cycle (fuel : nat) (n_batches : Z) (all_files : list string)
    (st : skip_state) : option skip_state :=
  match fuel with
  | O => None
  | S fuel =>
      let '(st, broke) := skip_pass n_batches (enumerate all_files) st in
      if broke then Some st else skip_cycle fuel n_batches all_files st
  end.

(** On no files the loop body never runs and the [return] meets unbound
    variables. *)
Definition _get_skip_index (fuel : nat) (all_files : list string) (n_batches : Z)
    : option (outcome (nat * Z)) :=
  match all_files with
  | [] => Some (raised "UnboundLocalError")
  | _ =>
      st ← skip_cycle fuel n_batches all_files
             {| prev_cumsum := 0; cumsum := 0; global_n_documents := None;
                skip_idx := None; remainder := None |};
      match skip_idx st, remainder st with
      | Some i, Some r => Some (returned (i, r))
      | _, _ => Some (raised "UnboundLocalError")
      end
  end.

(** The number of documents the loop counts for a file: the one in its
    name, else the one found by iteration in the first file of the list
    without a count in its name. *)
Definition documents (all_files : list string) (f : string) : Z :=
  match _get_number_of_documents f with
  | Some k => k
  | None =>
      match List.find (fun f => negb (bool_decide (is_Some (_get_number_of_documents f))))
                      all_files with
      | Some f0 => _get_number_of_documents_by_iteration f0
      | None => 0
      end
  end.

Definition total_documents (all_files files : list string) : Z :=
  foldr (fun f acc => documents all_files f + acc) 0 files.

(** What the loop knows of the document counts after the files [seen] of
    the current pass: the cached count is that of the first file without a
    count in its name, and while nothing is cached every file seen had
    one. *)
Definition counts_known (all_files : list string) (st : skip_state)
    (seen : list string) : Prop :=
  match global_n_documents st with
  | Some g =>
      exists f0,
        List.find (fun f => negb (bool_decide (is_Some (_get_number_of_documents f))))
                  all_files = Some f0
        /\ g = _get_number_of_documents_by_iteration f0
  | None => Forall (fun f => is_Some (_get_number_of_documents f)) seen
  end.

End SkipIndex.

(** [sep.join(words)] of Python for a one-character separator. *)
Fixpoint join (sep : ascii) (words : list string) : string :=
  match words with
  | [] => EmptyString
  | [w] => w
  | w :: words => w +:+ String sep (join sep words)
  end.

(** ** Example data *)

(** A table whose only optimizer, "sgd", passes the gradient through and
    owns no state. *)
Definition passthrough : optimizer_fn := fun ctx _ => (grad ctx, []).

Definition sgd_only (opt : string) : option optimizer_fn :=
  if String.eqb opt "sgd" then Some passthrough else None.

Definition example_params (window : Z) (decay : Q) (names : gset string)
    : ModelParameter :=
  {| optimizer := "sgd"; rezero_lr_multiplier := 1 # 2; feature_dims := [];
     weight_decay := decay; weight_standardisation := false;
     scale_by_depth := false; n_blocks := 1; grad_accumulation := window;
     opt_beta1 := 9 # 10; opt_beta2 := 99 # 100;
     multi_loss_strategy := "mgda"; name_to_variable := names |}.

Definition example_var (name : string) : MtfVariable :=
  {| var_name := name;
     var_dims := [ {| dim_name := "a"; dim_size := 2 |};
                   {| dim_name := "b"; dim_size := 2 |} ];
     var_value := [1; 1; 1 # 4; 1 # 4]%Q |}.

Definition example_ctx (p : ModelParameter) (name : string) (g : tensor)
    : OptimizerCtx :=
  {| params := p; var := example_var name; grad := g; grad_buffer := None;
     update_ops := []; learning_rate := 1 |}.

(** The graph holds the accumulation buffer of "w" under the name that
    [get_optimizer] looks up in scope "opt". *)
Definition example_names : gset string :=
  {[ full_name "opt" (example_ctx (example_params 2 0 ∅) "w" []) ]}.

(** A small graph: the variable tensor 0, a constant 5 not fed by it, and
    operations producing 1 (from 0 and 5), 2 (from 5 alone), 3 (from 1 and 2)
    and, without gradient, 4 (from 3). *)
Definition example_trainable : list Operation :=
  [ {| op_inputs := []; op_outputs := [0%nat]; has_gradient := true |} ].

Definition example_operations : list Operation :=
  [ {| op_inputs := []; op_outputs := [0%nat]; has_gradient := true |};
    {| op_inputs := [0; 5]%nat; op_outputs := [1%nat]; has_gradient := true |};
    {| op_inputs := [5%nat]; op_outputs := [2%nat]; has_gradient := true |};
    {| op_inputs := [1; 2]%nat; op_outputs := [3%nat]; has_gradient := true |};
    {| op_inputs := [3%nat]; op_outputs := [4%nat]; has_gradient := false |} ].

(** * Properties *)

(** ** The blend coefficient of the two-head balancing *)

Section Gamma.
Local Open Scope Q_scope.

Ltac eval_equal :=
  repeat match goal with
  | |- context [equal ?x 0] =>
      let b := eval vm_compute in (equal x 0) in
      change (equal x 0) with b
  end.

(** The three masked additions of the source act as an if-else chain. *)
Lemma mgda_gamma_branches (v1v1 v1v2 v2v2 : Q) :
  mgda_gamma v1v1 v1v2 v2v2 ==
    if greater_equal v1v2 v1v1 then 1 - min_gamma
    else if greater_equal v1v2 v2v2 then min_gamma
    else (v2v2 - v1v2) * reciprocal (mgda_denominator v1v1 v1v2 v2v2).
Proof.
  unfold mgda_gamma.
  destruct (greater_equal v1v2 v1v1); destruct (greater_equal v1v2 v2v2);
    eval_equal; unfold to_fp32, min_gamma; ring.
Qed.

Lemma greater_equal_true (a b : Q) : greater_equal a b = true <-> b <= a.
Proof. unfold greater_equal. apply Qle_bool_iff. Qed.


(** The denominator of the source adds [2 * g1.g2] where the squared norm
    of [g1 - g2] subtracts it. On the inner products [g1.g1 = 1],
    [g1.g2 = -1], [g2.g2 = 2] of the gradients [(1, 0)] and [(-1, 1)] the
    third case is taken, the source's denominator is [1 + 2 + 2 * (-1) = 1]
    and the coefficient is [3], where the specification has [3/5]. *)
Lemma mgda_gamma_not_spec :
  mgda_gamma 1 (-1) 2 == 3
  /\ gamma_spec 1 (-1) 2 == 3 # 5
  /\ ~ (mgda_gamma 1 (-1) 2 <= 1)
  /\ ~ (mgda_gamma 1 (-1) 2 == gamma_spec 1 (-1) 2).
Proof.
  repeat split; try (vm_compute; reflexivity);
    intros H; vm_compute in H; congruence.
Qed.







End Gamma.
(** ** The step indicator and the momentum coefficients *)

Section Schedule.
Local Open Scope Q_scope.








End Schedule.

(** ** The update rule chain, rezero scaling and the regularisation class *)

Section UpdateProperties.
Variable OPTIMIZERS : string -> option optimizer_fn.
Variable feature_dims_used : ModelParameter -> MtfVariable -> bool.
Variable get_fan_in : ModelParameter -> MtfVariable -> list Dimension.
Variable rsqrt_eps : Q -> Q.
Variable pow_half : Q -> Q.

Lemma chain_step_refl ctx : chain_step ctx ctx.
Proof.
  repeat split. exists []. simpl. now rewrite app_nil_r.
Qed.

Lemma chain_step_trans a b c : chain_step a b -> chain_step b c -> chain_step a c.
Proof.
  intros (Hp & Hv & Hb & Hl & s1 & Ho) (Hp' & Hv' & Hb' & Hl' & s2 & Ho').
  repeat split; try congruence.
  exists (s1 ++ s2). rewrite Ho', Ho. unfold state_ops.
  now rewrite map_app, app_assoc.
Qed.

Lemma run_optimizer_step ctx token ctx' :
  run_optimizer OPTIMIZERS ctx token = Some ctx' -> chain_step ctx ctx'.
Proof.
  unfold run_optimizer. destruct (split ":" token) as [|opt args]; [discriminate|].
  destruct (OPTIMIZERS opt) as [f|]; [|discriminate]. simpl.
  destruct (f ctx args) as [g st]. intros [= <-].
  repeat split. exists st. reflexivity.
Qed.

Lemma fold_chain_step tokens : forall ctx ctx',
  foldl (fun acc token => ctx ← acc; run_optimizer OPTIMIZERS ctx token)
        (Some ctx) tokens = Some ctx' ->
  chain_step ctx ctx'.
Proof.
  induction tokens as [|token tokens IH]; intros ctx ctx'; simpl.
  - intros [= <-]. apply chain_step_refl.
  - destruct (run_optimizer OPTIMIZERS ctx token) as [ctx1|] eqn:H1.
    + intros H. eapply chain_step_trans; [eapply run_optimizer_step, H1|].
      now apply IH.
    + intros H. exfalso. revert H. clear. induction tokens; simpl; [discriminate|assumption].
Qed.

Lemma run_chain_step ctx ctx' :
  run_chain OPTIMIZERS ctx = Some ctx' -> chain_step ctx ctx'.
Proof. apply fold_chain_step. Qed.

Lemma set_grad_same ctx : set_grad ctx (grad ctx) = ctx.
Proof. now destruct ctx. Qed.

Lemma decay_not_large ctx :
  large_tensor feature_dims_used (params ctx) (var ctx) = false ->
  decay feature_dims_used ctx = ctx.
Proof. intros H. unfold decay. now rewrite H. Qed.

Lemma write_back_not_large ctx :
  large_tensor feature_dims_used (params ctx) (var ctx) = false ->
  write_back feature_dims_used get_fan_in rsqrt_eps pow_half ctx
  = append_ops ctx [assign_sub SlotVar (grad ctx)].
Proof. intros H. unfold write_back. now rewrite H. Qed.

(** C10: for a variable whose name contains "rezero", the gradient the
    chain returns is multiplied by [rezero_lr_multiplier] before the weight
    decay and the write-back; for any other name it goes on unscaled. For a
    tensor that is not large, the write-back is the subtraction of exactly
    that gradient. *)
Theorem rezero_scaling (ctx ctx1 : OptimizerCtx) :
  run_chain OPTIMIZERS (load_grad_buffer ctx) = Some ctx1 ->
  let g :=
    if contains "rezero" (var_name (var ctx))
    then multiply (rezero_lr_multiplier (params ctx)) (grad ctx1)
    else grad ctx1 in
  update OPTIMIZERS feature_dims_used get_fan_in rsqrt_eps pow_half ctx
  = Some (write_back feature_dims_used get_fan_in rsqrt_eps pow_half
            (decay feature_dims_used (set_grad ctx1 g)))
  /\ (large_tensor feature_dims_used (params ctx) (var ctx) = false ->
      exists ctx2,
        update OPTIMIZERS feature_dims_used get_fan_in rsqrt_eps pow_half ctx
        = Some ctx2
        /\ update_ops ctx2 = update_ops ctx1 ++ [assign_sub SlotVar g]).
Proof.
  intros Hc g.
  assert (Hv : var ctx1 = var ctx /\ params ctx1 = params ctx).
  { apply run_chain_step in Hc as (Hp & Hv & _).
    unfold load_grad_buffer in Hp, Hv.
    destruct (grad_buffer ctx); simpl in Hp, Hv; split; congruence. }
  destruct Hv as [Hv Hp].
  assert (Hr : rezero_scale ctx1 = set_grad ctx1 g).
  { unfold rezero_scale, g. rewrite Hv, Hp.
    destruct (contains "rezero" (var_name (var ctx))); [reflexivity|].
    now rewrite set_grad_same. }
  assert (Hu : update OPTIMIZERS feature_dims_used get_fan_in rsqrt_eps pow_half ctx
               = Some (write_back feature_dims_used get_fan_in rsqrt_eps pow_half
                         (decay feature_dims_used (set_grad ctx1 g)))).
  { unfold update. rewrite Hc. simpl. now rewrite Hr. }
  split; [exact Hu|].
  intros Hl. eexists. split; [exact Hu|].
  assert (Hl' : large_tensor feature_dims_used (params (set_grad ctx1 g))
                  (var (set_grad ctx1 g)) = false)
    by (simpl; now rewrite Hv, Hp).
  rewrite (decay_not_large _ Hl'), (write_back_not_large _ Hl'). reflexivity.
Qed.

(** C3 (amended): the class of a variable is decided by the number of its
    dimensions, its size, [feature_dims_used] and seven substring tests on
    its display name; two variables that agree on these are classified
    identically, and a name containing "embed" is never large. *)
Theorem large_tensor_by_name_substrings (p : ModelParameter) (v1 v2 : MtfVariable) :
  var_dims v1 = var_dims v2 ->
  feature_dims_used p v1 = feature_dims_used p v2 ->
  Forall (fun s => contains s (var_name v1) = contains s (var_name v2))
         role_substrings ->
  large_tensor feature_dims_used p v1 = large_tensor feature_dims_used p v2
  /\ (contains "embed" (var_name v1) = true ->
      large_tensor feature_dims_used p v1 = false).
Proof.
  intros Hd Hf Hs. unfold role_substrings in Hs.
  repeat match goal with
         | H : Forall _ (_ :: _) |- _ => apply Forall_cons in H as [? H]
         end.
  unfold large_tensor. split.
  - rewrite Hd, Hf. congruence.
  - intros ->. simpl. now rewrite andb_false_r.
Qed.

(** C9: the accumulate path runs exactly when the mode string is
    "accumulate"; it then never consults the optimizer table, while any
    other mode string runs [update]; a chain token is resolved in the
    optimizer table alone, also when it spells the reserved mode name, so
    the two lookups cannot interfere; and none of the optimizer names of
    the specification is the reserved name. *)
Theorem accumulate_dispatched_by_name (scope fn : string)
    (stored : option tensor) (ctx : OptimizerCtx) :
  (select_fn fn = fn_gradient_accumulation <-> fn = "accumulate")
  /\ (fn = "accumulate" ->
      apply_fn OPTIMIZERS feature_dims_used get_fan_in rsqrt_eps pow_half
               scope fn stored ctx
      = gradient_accumulation
          (set_grad_buffer ctx (Some (variable stored (var ctx)))))
  /\ (fn <> "accumulate" ->
      apply_fn OPTIMIZERS feature_dims_used get_fan_in rsqrt_eps pow_half
               scope fn stored ctx
      = update OPTIMIZERS feature_dims_used get_fan_in rsqrt_eps pow_half
               (attach_grad_buffer scope fn stored ctx))
  /\ run_optimizer OPTIMIZERS ctx "accumulate"
     = (f ← OPTIMIZERS "accumulate";
        Some (set_grad (append_ops ctx (state_ops (f ctx []).2)) (f ctx []).1))
  /\ "accumulate" ∉ named_optimizers.
Proof.
  assert (Hsel : select_fn fn = fn_gradient_accumulation <-> fn = "accumulate").
  { unfold select_fn. destruct (String.eqb_spec fn "accumulate"); split;
      intros; try congruence; try discriminate. }
  split; [exact Hsel|]. split; [|split].
  - intros ->. reflexivity.
  - intros Hne. unfold apply_fn, select_fn.
    destruct (String.eqb_spec fn "accumulate"); [contradiction|]. reflexivity.
  - split.
    + unfold run_optimizer. simpl.
      destruct (OPTIMIZERS "accumulate") as [f|]; [|reflexivity]. simpl.
      now destruct (f ctx []).
    + unfold named_optimizers. intros H.
      repeat (apply elem_of_cons in H as [H|H]; [discriminate|]).
      now apply elem_of_nil in H.
Qed.

End UpdateProperties.

Lemma rezero_scaling_witness :
  exists ctx2,
    update sgd_only (fun _ _ => false) (fun _ _ => []) (fun x => x) (fun x => x)
           (example_ctx (example_params 1 0 ∅) "rezero_embed" [1; 1; 1; 1]%Q)
    = Some ctx2
    /\ update_ops ctx2 = [assign_sub SlotVar (multiply (1 # 2) [1; 1; 1; 1]%Q)].
Proof.
  pose (ctx := example_ctx (example_params 1 0 ∅) "rezero_embed" [1; 1; 1; 1]%Q).
  destruct (rezero_scaling sgd_only (fun _ _ => false) (fun _ _ => [])
              (fun x => x) (fun x => x) ctx ctx eq_refl) as [_ H].
  apply H. reflexivity.
Defined.

Lemma large_tensor_by_name_substrings_witness :
  large_tensor (fun _ _ => false) (example_params 1 0 ∅) (example_var "kernel")
  = large_tensor (fun _ _ => false) (example_params 1 0 ∅) (example_var "w").
Proof.
  apply (large_tensor_by_name_substrings (fun _ _ => false) (example_params 1 0 ∅)
           (example_var "kernel") (example_var "w")); [reflexivity..|].
  repeat constructor.
Defined.

(** C3, as the specification states it, fails: two variables of the same
    shape and value, one named "w" and one named "embed_w", are classified
    differently whatever [feature_dims_used] answers, and with weight decay
    enabled only the first has the decay term added to its gradient. *)
Lemma large_tensor_depends_on_name :
  var_dims (example_var "w") = var_dims (example_var "embed_w")
  /\ var_value (example_var "w") = var_value (example_var "embed_w")
  /\ (forall fdu,
        large_tensor fdu (example_params 1 (1 # 10) ∅) (example_var "w") = true
        /\ large_tensor fdu (example_params 1 (1 # 10) ∅) (example_var "embed_w") = false
        /\ grad (decay fdu (example_ctx (example_params 1 (1 # 10) ∅) "w" [0; 0; 0; 0]%Q))
           <> grad (decay fdu (example_ctx (example_params 1 (1 # 10) ∅) "embed_w" [0; 0; 0; 0]%Q))).
Proof.
  split; [reflexivity|]. split; [reflexivity|]. intros fdu.
  assert (H1 : large_tensor fdu (example_params 1 (1 # 10) ∅) (example_var "w") = true).
  { unfold large_tensor. simpl.
    destruct (fdu _ _); reflexivity. }
  assert (H2 : large_tensor fdu (example_params 1 (1 # 10) ∅) (example_var "embed_w") = false).
  { unfold large_tensor. simpl.
    destruct (fdu _ _); reflexivity. }
  split; [exact H1|]. split; [exact H2|].
  unfold decay. simpl. rewrite H1, H2. simpl. discriminate.
Qed.

Lemma accumulate_dispatched_by_name_witness :
  select_fn "accumulate" = fn_gradient_accumulation
  /\ apply_fn sgd_only (fun _ _ => false) (fun _ _ => []) (fun x => x) (fun x => x)
       "opt" "accumulate" None
       (example_ctx (example_params 2 0 ∅) "w" [1; 1; 1; 1]%Q) <> None
  /\ apply_fn sgd_only (fun _ _ => false) (fun _ _ => []) (fun x => x) (fun x => x)
       "opt" "oijhiojio" None
       (example_ctx (example_params 2 0 ∅) "w" [1; 1; 1; 1]%Q)
     = update sgd_only (fun _ _ => false) (fun _ _ => []) (fun x => x) (fun x => x)
         (example_ctx (example_params 2 0 ∅) "w" [1; 1; 1; 1]%Q).
Proof.
  set (ctx := example_ctx (example_params 2 0 ∅) "w" [1; 1; 1; 1]%Q).
  split; [|split].
  - apply (accumulate_dispatched_by_name sgd_only (fun _ _ => false) (fun _ _ => [])
             (fun x => x) (fun x => x) "opt" "accumulate" None ctx). reflexivity.
  - destruct (accumulate_dispatched_by_name sgd_only (fun _ _ => false) (fun _ _ => [])
                (fun x => x) (fun x => x) "opt" "accumulate" None ctx)
      as (_ & H & _).
    rewrite (H eq_refl). discriminate.
  - destruct (accumulate_dispatched_by_name sgd_only (fun _ _ => false) (fun _ _ => [])
                (fun x => x) (fun x => x) "opt" "oijhiojio" None ctx)
      as (_ & _ & H & _).
    rewrite (H ltac:(discriminate)). reflexivity.
Defined.

(** ** Gradient accumulation *)

Section Accumulation.
Variable OPTIMIZERS : string -> option optimizer_fn.
Variable feature_dims_used : ModelParameter -> MtfVariable -> bool.
Variable get_fan_in : ModelParameter -> MtfVariable -> list Dimension.
Variable rsqrt_eps : Q -> Q.
Variable pow_half : Q -> Q.
Variables (scope : string) (p : ModelParameter) (lr : Q).
Variables (name : string) (dims : list Dimension).

Local Abbreviation step_in :=
  (train_step OPTIMIZERS feature_dims_used get_fan_in rsqrt_eps pow_half
              scope p lr name dims).

Lemma split_nonempty sep s : split sep s <> [].
Proof.
  destruct s as [|c s]; simpl; [discriminate|].
  destruct (Ascii.eqb c sep); [discriminate|].
  destruct (split sep s); discriminate.
Qed.

Lemma run_optimizer_known ctx token :
  is_Some (OPTIMIZERS (hd EmptyString (split ":" token))) ->
  is_Some (run_optimizer OPTIMIZERS ctx token).
Proof.
  unfold run_optimizer. pose proof (split_nonempty ":" token) as Hne.
  destruct (split ":" token) as [|opt args]; [contradiction|]. simpl.
  intros [f ->]. simpl. destruct (f ctx args). eauto.
Qed.

Lemma run_chain_known ctx :
  chain_known OPTIMIZERS (params ctx) -> is_Some (run_chain OPTIMIZERS ctx).
Proof.
  unfold chain_known, run_chain.
  generalize (split "-" (optimizer (params ctx))) as tokens.
  intros tokens. revert ctx.
  induction tokens as [|token tokens IH]; intros ctx Hk; simpl; [eauto|].
  apply Forall_cons in Hk as [Hk1 Hk2].
  destruct (run_optimizer_known ctx token Hk1) as [ctx1 ->]. now apply IH.
Qed.

Lemma run_ops_app st ops1 ops2 :
  run_ops st (ops1 ++ ops2) = run_ops (run_ops st ops1) ops2.
Proof. apply foldl_app. Qed.

Lemma run_state_ops st l :
  stored_value (run_ops st (state_ops l)) = stored_value st
  /\ stored_buffer (run_ops st (state_ops l)) = stored_buffer st.
Proof.
  revert st. induction l as [|[k t] l IH]; intros st; [easy|].
  change (run_ops st (state_ops ((k, t) :: l)))
    with (run_ops (write_slot st (SlotState k) t) (state_ops l)).
  destruct (IH (write_slot st (SlotState k) t)) as [-> ->]. easy.
Qed.

(** One step in "accumulate" mode: the variable is not written and the
    buffer receives what [assign_add] makes of it. *)
Lemma accumulate_step st g :
  step_in "accumulate" st g
  = Some (write_slot st SlotGradBuffer
            (let buf := variable (stored_buffer st)
                          (var (make_ctx p lr name dims st g)) in
             add (read_slot st SlotGradBuffer (add g buf)) (add g buf))).
Proof. reflexivity. Qed.

Lemma accumulate_steps_buffer k : forall st g,
  exists b,
    accumulate_steps OPTIMIZERS feature_dims_used get_fan_in rsqrt_eps pow_half
                     scope p lr name dims (S k) st g
    = Some {| stored_value := stored_value st; stored_buffer := Some b;
              stored_state := stored_state st |}.
Proof.
  induction k as [|k IH]; intros st g.
  - eexists. reflexivity.
  - change (accumulate_steps _ _ _ _ _ _ _ _ _ _ (S (S k)) st g)
      with (st' ← step_in "accumulate" st g;
            accumulate_steps OPTIMIZERS feature_dims_used get_fan_in rsqrt_eps
              pow_half scope p lr name dims (S k) st' g).
    rewrite accumulate_step. 
    match goal with |- context [Some ?x ≫= _] => destruct (IH x g) as [b Hb] end.
    exists b. etransitivity; [exact Hb|]. reflexivity.
Qed.

Lemma add_zeros_l (g z : tensor) :
  List.length g = List.length z -> tensor_eq (add (zeros_like (add g (zeros_like z)))
                                        (add g (zeros_like z))) g.
Proof.
  revert z. induction g as [|x g IH]; intros [|y z] Hlen; simpl in *;
    try discriminate; constructor.
  - ring.
  - apply IH. congruence.
Qed.

Lemma final_op_on_var ctx :
  exists a,
    update_ops (write_back feature_dims_used get_fan_in rsqrt_eps pow_half
                  (decay feature_dims_used (rezero_scale ctx)))
    = update_ops ctx ++ [a]
    /\ forall st, stored_buffer (run_assign st a) = stored_buffer st.
Proof.
  unfold write_back.
  assert (Ho : update_ops (decay feature_dims_used (rezero_scale ctx)) = update_ops ctx).
  { unfold decay, rezero_scale.
    repeat match goal with |- context [if ?b then _ else _] => destruct b end;
      reflexivity. }
  match goal with |- context [if ?b then _ else _] => destruct b end;
    eexists; (split; [simpl; rewrite Ho; reflexivity|]); intros st; reflexivity.
Qed.

End Accumulation.

(** C2, on the scenario the specification gives for it: window 2, gradient
    [[0.2]] on both steps, value [[1.0]], learning rate 1, chain "sgd" and an
    unallocated buffer. Whatever names the graph holds, the accumulate step
    leaves the value alone and the buffer at [[0.2]]; the apply step feeds
    the chain [[0.2]], not the sum [[0.4]] of the two gradients, and leaves
    the value [[0.8]], not [[0.6]]. When the graph does not hold the name
    that line 170 builds, with its stray [f] and quote, the buffer is
    neither read nor reset and still holds [[0.2]] after the apply step.
    Over three accumulate steps, as in a window of 4, the buffer reaches
    [[1.4]], not [[0.6]], because line 28 adds the buffer to itself along
    with the gradient. *)
Theorem accumulation_scenario_single_gradient (names : gset string) :
  let p := example_params 2 0 names in
  let step_in := train_step sgd_only (fun _ _ => false) (fun _ _ => [])
                   (fun x => x) (fun x => x) "opt" p 1 "w" [] in
  let st0 := {| stored_value := [1%Q]; stored_buffer := None; stored_state := ∅ |} in
  let g := [(2 # 10)%Q] in
  (exists st1 b st2,
      step_in "accumulate" st0 g = Some st1
      /\ stored_value st1 = [1%Q]
      /\ stored_buffer st1 = Some b
      /\ tensor_eq b [(2 # 10)%Q]
      /\ tensor_eq (grad (load_grad_buffer
                            (attach_grad_buffer "opt" "update" (stored_buffer st1)
                               (make_ctx p 1 "w" [] st1 g)))) [(2 # 10)%Q]
      /\ step_in "update" st1 g = Some st2
      /\ tensor_eq (stored_value st2) [(8 # 10)%Q]
      /\ ~ tensor_eq (stored_value st2) [(6 # 10)%Q]
      /\ (full_name "opt" (make_ctx p 1 "w" [] st1 g) ∉ names ->
          stored_buffer st2 = Some b /\ ~ tensor_eq b (zeros_like b)))
  /\ (exists st3 b3,
        accumulate_steps sgd_only (fun _ _ => false) (fun _ _ => [])
          (fun x => x) (fun x => x) "opt" p 1 "w" [] 3 st0 g = Some st3
        /\ stored_buffer st3 = Some b3
        /\ tensor_eq b3 [(14 # 10)%Q] /\ ~ tensor_eq b3 [(6 # 10)%Q]).
Proof.
  intros p step_in st0 g.
  pose (b := add (zeros_like (add g (zeros_like [1%Q]))) (add g (zeros_like [1%Q]))).
  pose (st1 := {| stored_value := [1%Q]; stored_buffer := Some b; stored_state := ∅ |}).
  assert (Hb : tensor_eq b [(2 # 10)%Q]) by (repeat constructor).
  assert (Hnot : forall t : tensor,
             tensor_eq t [(8 # 10)%Q] -> ~ tensor_eq t [(6 # 10)%Q]).
  { intros t Ht H6. inversion Ht as [|x ? ? ? Hx]; subst.
    inversion H6 as [|? ? ? ? Hy]; subst. rewrite Hx in Hy.
    vm_compute in Hy. discriminate. }
  split.
  - destruct (decide (full_name "opt" (make_ctx p 1 "w" [] st1 g) ∈ names))
      as [Hin|Hout].
    + exists st1, b.
      exists {| stored_value := sub [1%Q] b; stored_buffer := Some (zeros_like b);
                stored_state := ∅ |}.
      split; [reflexivity|]. split; [reflexivity|]. split; [reflexivity|].
      split; [exact Hb|].
      assert (Ha : attach_grad_buffer "opt" "update" (Some b)
                     (make_ctx p 1 "w" [] st1 g)
                   = set_grad_buffer (make_ctx p 1 "w" [] st1 g) (Some b)).
      { unfold attach_grad_buffer. rewrite (bool_decide_eq_true_2 _ Hin).
        reflexivity. }
      split; [simpl stored_buffer; rewrite Ha; exact Hb|].
      split.
      { unfold step_in, train_step, apply_fn. simpl stored_buffer.
        rewrite Ha. reflexivity. }
      assert (H8 : tensor_eq (sub [1%Q] b) [(8 # 10)%Q]) by (repeat constructor).
      split; [exact H8|]. split; [now apply Hnot|]. intros Hc. contradiction.
    + exists st1, b.
      exists {| stored_value := sub [1%Q] g; stored_buffer := Some b;
                stored_state := ∅ |}.
      split; [reflexivity|]. split; [reflexivity|]. split; [reflexivity|].
      split; [exact Hb|].
      assert (Ha : attach_grad_buffer "opt" "update" (Some b)
                     (make_ctx p 1 "w" [] st1 g)
                   = make_ctx p 1 "w" [] st1 g).
      { unfold attach_grad_buffer. rewrite (bool_decide_eq_false_2 _ Hout).
        reflexivity. }
      split; [simpl stored_buffer; rewrite Ha; repeat constructor|].
      split.
      { unfold step_in, train_step, apply_fn. simpl stored_buffer.
        rewrite Ha. reflexivity. }
      assert (H8 : tensor_eq (sub [1%Q] g) [(8 # 10)%Q]) by (repeat constructor).
      split; [exact H8|]. split; [now apply Hnot|]. intros _.
      split; [reflexivity|].
      intros Hz. inversion Hz as [|? ? ? ? Hq]; subst. vm_compute in Hq.
      discriminate.
  - do 2 eexists. split; [reflexivity|]. split; [reflexivity|].
    split; [repeat constructor|].
    intros H. inversion H as [|? ? ? ? Hq]; subst. vm_compute in Hq. congruence.
Qed.

(** ** How the buffer grows over the accumulate steps *)

Section AccumulationGrowth.
Variable OPTIMIZERS : string -> option optimizer_fn.
Variable feature_dims_used : ModelParameter -> MtfVariable -> bool.
Variable get_fan_in : ModelParameter -> MtfVariable -> list Dimension.
Variable rsqrt_eps : Q -> Q.
Variable pow_half : Q -> Q.
Variables (scope : string) (p : ModelParameter) (lr : Q).
Variables (name : string) (dims : list Dimension).

Local Abbreviation steps :=
  (accumulate_steps OPTIMIZERS feature_dims_used get_fan_in rsqrt_eps pow_half
                    scope p lr name dims).

Lemma tensor_eq_trans a b c : tensor_eq a b -> tensor_eq b c -> tensor_eq a c.
Proof.
  intros Hab. revert c. induction Hab as [|x y a b Hxy _ IH]; intros c Hbc;
    inversion Hbc; subst; constructor.
  - now rewrite Hxy.
  - now apply IH.
Qed.

Lemma add_tensor_eq a a' b b' :
  tensor_eq a a' -> tensor_eq b b' -> tensor_eq (add a b) (add a' b').
Proof.
  intros Ha. revert b b'. induction Ha as [|x y a a' Hxy _ IH]; intros b b' Hb.
  - constructor.
  - destruct Hb as [|u w b b' Huw Hb]; simpl; constructor.
    + now rewrite Hxy, Huw.
    + now apply IH.
Qed.

Lemma doubling_step (c : Q) (g b : tensor) :
  tensor_eq b (multiply c g) ->
  tensor_eq (add b (add g b)) (multiply (2 * c + 1) g).
Proof.
  intros Hb. eapply tensor_eq_trans.
  - apply add_tensor_eq; [exact Hb|]. apply add_tensor_eq; [|exact Hb].
    instantiate (1 := g). clear. induction g; constructor; [reflexivity|assumption].
  - clear. induction g as [|x g IH]; simpl; constructor; [ring|exact IH].
Qed.

(** From a buffer holding [c * g], [k] further accumulate steps with the
    gradient [g] leave [(2^k * (c + 1) - 1) * g] in the buffer: every step
    adds the buffer to itself along with the gradient. *)
Lemma accumulate_steps_doubling k : forall (st : VarStore) (g b : tensor) (c : Q),
  stored_buffer st = Some b ->
  tensor_eq b (multiply c g) ->
  exists st' b',
    steps k st g = Some st'
    /\ stored_buffer st' = Some b'
    /\ tensor_eq b' (multiply (inject_Z (2 ^ Z.of_nat k) * (c + 1) - 1) g).
Proof.
  induction k as [|k IH]; intros st g b c Hst Hb.
  - exists st, b. split; [reflexivity|]. split; [exact Hst|].
    eapply tensor_eq_trans; [exact Hb|]. clear.
    induction g as [|x g IHg]; simpl; constructor; [|exact IHg].
    change (inject_Z (2 ^ Z.of_nat 0)) with 1%Q. ring.
  - change (steps (S k) st g)
      with (st' ← train_step OPTIMIZERS feature_dims_used get_fan_in rsqrt_eps
                    pow_half scope p lr name dims "accumulate" st g;
            steps k st' g).
    rewrite accumulate_step. rewrite Hst.
    match goal with |- context [Some ?x ≫= _] => set (st1 := x) end.
    assert (Hst1 : stored_buffer st1 = Some (add b (add g b))).
    { subst st1. simpl. unfold read_slot. now rewrite Hst. }
    destruct (IH st1 g (add b (add g b)) (2 * c + 1)%Q Hst1
                (doubling_step c g b Hb)) as (st' & b' & H1 & H2 & H3).
    exists st', b'. split; [exact H1|]. split; [exact H2|].
    eapply tensor_eq_trans; [exact H3|]. clear.
    replace (Z.of_nat (S k)) with (Z.of_nat k + 1)%Z by lia.
    rewrite Z.pow_add_r by lia. rewrite inject_Z_mult.
    change (inject_Z (2 ^ 1)) with 2%Q.
    induction g as [|x g IHg]; simpl; constructor; [ring|exact IHg].
Qed.

End AccumulationGrowth.

(** ** The downstream set *)

Section Downstream.
Implicit Types (op : Operation) (operations : list Operation).
Implicit Types (downstream : gset nat) (xs : list nat) (t : nat).

(** The guard of the scan: gradient-capable, and an input is in the set. *)
Lemma feeds_iff op downstream :
  has_gradient op
    && bool_decide (list_to_set (op_inputs op) ∩ downstream ≠ (∅ : gset nat)) = true
  <-> has_gradient op = true /\ exists x, x ∈ op_inputs op /\ x ∈ downstream.
Proof.
  rewrite andb_true_iff, bool_decide_eq_true. split.
  - intros [Hg Hne]. split; [exact Hg|].
    apply set_choose_L in Hne as [x Hx]. exists x.
    apply elem_of_intersection in Hx as [Hx1 Hx2].
    now apply elem_of_list_to_set in Hx1.
  - intros [Hg (x & Hx1 & Hx2)]. split; [exact Hg|].
    intros He. apply (not_elem_of_empty (C := gset nat) x). rewrite <- He.
    apply elem_of_intersection. split; [now apply elem_of_list_to_set|exact Hx2].
Qed.

Lemma downstream_step_elem downstream op t :
  t ∈ downstream_step downstream op
  <-> t ∈ downstream
      \/ (has_gradient op = true
          /\ (exists x, x ∈ op_inputs op /\ x ∈ downstream)
          /\ t ∈ op_outputs op).
Proof.
  unfold downstream_step.
  destruct (has_gradient op
            && bool_decide (list_to_set (op_inputs op) ∩ downstream ≠ (∅ : gset nat)))
    eqn:Hc.
  - apply feeds_iff in Hc as [Hg Hx].
    rewrite elem_of_union, elem_of_list_to_set. tauto.
  - split; [tauto|]. intros [H|(Hg & Hx & _)]; [exact H|].
    assert (Hc' : has_gradient op
              && bool_decide (list_to_set (op_inputs op) ∩ downstream ≠ (∅ : gset nat))
              = true) by now apply feeds_iff.
    congruence.
Qed.

Lemma compute_downstream_snoc operations op xs :
  compute_downstream (operations ++ [op]) xs
  = downstream_step (compute_downstream operations xs) op.
Proof. unfold compute_downstream. now rewrite foldl_app. Qed.

Lemma compute_downstream_elem operations xs t :
  t ∈ compute_downstream operations xs
  <-> t ∈ xs
      \/ exists i op,
           operations !! i = Some op
           /\ has_gradient op = true
           /\ (exists x, x ∈ op_inputs op
                         /\ x ∈ compute_downstream (take i operations) xs)
           /\ t ∈ op_outputs op.
Proof.
  induction operations as [|op operations IH] using rev_ind.
  - unfold compute_downstream. simpl. rewrite elem_of_list_to_set.
    split; [tauto|]. intros [H|(i & op & Hi & _)]; [exact H|].
    now rewrite lookup_nil in Hi.
  - rewrite compute_downstream_snoc, downstream_step_elem, IH. split.
    + intros [[H|(i & op' & Hi & Hg & Hx & Ht)]|(Hg & Hx & Ht)].
      * now left.
      * right. exists i, op'.
        pose proof (lookup_lt_Some _ _ _ Hi) as Hlt.
        rewrite lookup_app_l by exact Hlt.
        rewrite take_app_le by lia. tauto.
      * right. exists (List.length operations), op.
        rewrite list_lookup_middle by reflexivity.
        rewrite take_app_length. tauto.
    + intros [H|(i & op' & Hi & Hg & Hx & Ht)]; [now left; left|].
      destruct (decide (i < List.length operations)%nat) as [Hlt|Hge].
      * left. right. exists i, op'.
        rewrite lookup_app_l in Hi by exact Hlt.
        rewrite take_app_le in Hx by lia. tauto.
      * pose proof (lookup_lt_Some _ _ _ Hi) as Hlt.
        rewrite length_app in Hlt. simpl in Hlt.
        assert (i = List.length operations) as -> by lia.
        rewrite list_lookup_middle in Hi by reflexivity. injection Hi as <-.
        rewrite take_app_length in Hx. right. tauto.
Qed.

(** C5: the scan is seeded with exactly the first output of every
    trainable variable; each operation, in construction order, adds its
    outputs exactly when it is gradient-capable and one of its inputs is
    already in the set, so a tensor is downstream iff it is a seed or an
    output of such an operation; and every loss head gets the set computed
    afresh from the operations of its own graph. *)
Theorem downstream_forward_scan (operations : list Operation)
    (trainable_variables : list Operation) (xs : list nat) :
  trainable_xs trainable_variables = Some xs ->
  Forall2 (fun x out => op_outputs x !! 0%nat = Some out) trainable_variables xs
  /\ compute_downstream [] xs = list_to_set xs
  /\ (forall ops op,
        compute_downstream (ops ++ [op]) xs
        = if has_gradient op
             && bool_decide (Exists (fun x => x ∈ compute_downstream ops xs)
                                    (op_inputs op))
          then compute_downstream ops xs ∪ list_to_set (op_outputs op)
          else compute_downstream ops xs)
  /\ (forall t,
        t ∈ compute_downstream operations xs
        <-> t ∈ xs
            \/ exists i op,
                 operations !! i = Some op
                 /\ has_gradient op = true
                 /\ (exists x, x ∈ op_inputs op
                               /\ x ∈ compute_downstream (take i operations) xs)
                 /\ t ∈ op_outputs op)
  /\ (forall heads,
        head_downstreams heads trainable_variables
        = Some (map (fun ops => compute_downstream ops xs) heads)).
Proof.
  intros Hxs. split; [now apply mapM_Some|]. split; [reflexivity|].
  split; [|split].
  - intros ops op. rewrite compute_downstream_snoc. unfold downstream_step.
    rewrite (bool_decide_ext
               (list_to_set (op_inputs op) ∩ compute_downstream ops xs ≠ (∅ : gset nat))
               (Exists (fun x => x ∈ compute_downstream ops xs) (op_inputs op)));
      [reflexivity|]. split.
    + intros Hne. apply set_choose_L in Hne as [x Hx]. apply Exists_exists.
      exists x. apply elem_of_intersection in Hx as [Hx1 Hx2].
      now apply elem_of_list_to_set in Hx1.
    + intros (x & Hx1 & Hx2)%Exists_exists He.
      apply (not_elem_of_empty (C := gset nat) x). rewrite <- He.
      apply elem_of_intersection. split; [now apply elem_of_list_to_set|exact Hx2].
  - apply compute_downstream_elem.
  - intros heads. unfold head_downstreams. apply mapM_Some.
    rewrite Hxs. simpl. induction heads; constructor; auto.
Qed.

End Downstream.

Lemma downstream_forward_scan_witness :
  3%nat ∈ compute_downstream example_operations [0%nat]
  /\ head_downstreams [example_operations; []] example_trainable
     = Some [compute_downstream example_operations [0%nat];
             compute_downstream [] [0%nat]].
Proof.
  destruct (downstream_forward_scan example_operations example_trainable [0%nat]
              eq_refl) as (_ & _ & _ & Helem & Hheads).
  split; [|apply Hheads].
  apply Helem. right.
  exists 3%nat, {| op_inputs := [1; 2]%nat; op_outputs := [3%nat]; has_gradient := true |}.
  split; [reflexivity|]. split; [reflexivity|]. split.
  - exists 1%nat. split; [repeat constructor|].
    vm_compute. reflexivity.
  - repeat constructor.
Defined.

(** ** The gradient map when an operation is visited *)

Section GradientMapVisit.
Implicit Types (m : GradientMap) (out t : nat).

Lemma collect_output_spec acc m out :
  exists m',
    collect_output (acc, m) out = (acc ++ [snd <$> m !! out], m')
    /\ m' !! out = m !! out ≫= visited_entry
    /\ forall t, t ≠ out -> m' !! t = m !! t.
Proof.
  unfold collect_output.
  destruct (m !! out) as [[[c0 c1] g]|] eqn:He.
  - change (Some (c0, c1, g) ≫= visited_entry) with (visited_entry (c0, c1, g)).
    unfold visited_entry.
    destruct (S c0 =? grad_operation_inputs g)%nat eqn:Hc;
      eexists; (split; [reflexivity|]); split.
    + apply lookup_delete_eq.
    + intros t Ht. now apply lookup_delete_ne.
    + apply lookup_insert_eq.
    + intros t Ht. now apply lookup_insert_ne.
  - exists m. rewrite He. auto.
Qed.

Lemma collect_outputs_spec outs : forall acc m,
  NoDup outs ->
  exists m',
    foldl collect_output (acc, m) outs
    = (acc ++ map (fun out => snd <$> m !! out) outs, m')
    /\ (forall t, t ∈ outs -> m' !! t = m !! t ≫= visited_entry)
    /\ (forall t, t ∉ outs -> m' !! t = m !! t).
Proof.
  induction outs as [|out outs IH]; intros acc m Hnd.
  - exists m. simpl. rewrite app_nil_r. split; [reflexivity|].
    split; [|reflexivity]. intros t Ht. now apply elem_of_nil in Ht.
  - apply NoDup_cons in Hnd as [Hout Hnd].
    destruct (collect_output_spec acc m out) as (m1 & H1 & Hsame & Hother).
    destruct (IH (acc ++ [snd <$> m !! out]) m1 Hnd) as (m' & H' & Hin & Hnot).
    exists m'.
    change (foldl collect_output (acc, m) (out :: outs))
      with (foldl collect_output (collect_output (acc, m) out) outs).
    rewrite H1, H'. split; [|split].
    + rewrite <- app_assoc. simpl. do 3 f_equal.
      apply map_ext_in. intros o Ho. apply list_elem_of_In in Ho.
      rewrite Hother; [reflexivity|]. intros ->. contradiction.
    + intros t [->|Ht]%elem_of_cons.
      * now rewrite Hnot, Hsame.
      * rewrite (Hin t Ht), Hother; [reflexivity|]. intros ->. contradiction.
    + intros t Ht. apply not_elem_of_cons in Ht as [Hne Ht].
      now rewrite (Hnot t Ht), Hother.
Qed.

(** C6 (amended): when the traversal visits an operation, every output
    that has an entry has its stored gradient read and its first counter
    incremented, and the entry is removed exactly when the incremented
    counter equals the number of inputs of the operation that produced the
    stored gradient; an output without an entry yields no gradient and
    gets no entry, so nothing is read after a removal; the entries of all
    other tensors are untouched. *)
Theorem gradient_map_visit (op : Operation) (m : GradientMap) :
  NoDup (op_outputs op) ->
  (collect_grad_outputs op m).1 = map (fun out => snd <$> m !! out) (op_outputs op)
  /\ (forall t, t ∈ op_outputs op ->
        (collect_grad_outputs op m).2 !! t = m !! t ≫= visited_entry)
  /\ (forall t c0 c1 g, t ∈ op_outputs op -> m !! t = Some (c0, c1, g) ->
        (collect_grad_outputs op m).2 !! t = None
        <-> S c0 = grad_operation_inputs g)
  /\ (forall t, t ∉ op_outputs op -> (collect_grad_outputs op m).2 !! t = m !! t)
  /\ (forall t, m !! t = None -> (collect_grad_outputs op m).2 !! t = None).
Proof.
  intros Hnd. unfold collect_grad_outputs.
  destruct (collect_outputs_spec (op_outputs op) [] m Hnd) as (m' & -> & Hin & Hnot).
  simpl. split; [reflexivity|]. split; [exact Hin|]. split; [|split; [exact Hnot|]].
  - intros t c0 c1 g Ht He. rewrite (Hin t Ht), He.
    change (Some (c0, c1, g) ≫= visited_entry) with (visited_entry (c0, c1, g)).
    unfold visited_entry.
    destruct (Nat.eqb_spec (S c0) (grad_operation_inputs g)); split;
      intros; try congruence; try discriminate.
  - intros t He. destruct (decide (t ∈ op_outputs op)) as [Ht|Ht].
    + now rewrite (Hin t Ht), He.
    + now rewrite (Hnot t Ht).
Qed.

End GradientMapVisit.

Lemma gradient_map_visit_witness :
  let op := {| op_inputs := [1; 2]%nat; op_outputs := [3%nat]; has_gradient := true |} in
  let g := {| grad_id := 7; grad_operation_inputs := 1 |} in
  (collect_grad_outputs op (initial_gradients 3 g)).1 = [Some g]
  /\ (collect_grad_outputs op (initial_gradients 3 g)).2 !! 3%nat = None
  /\ (collect_grad_outputs op (collect_grad_outputs op (initial_gradients 3 g)).2).1
     = [None].
Proof.
  intros op g.
  assert (Hnd : NoDup (op_outputs op)) by (repeat constructor; set_solver).
  destruct (gradient_map_visit op (initial_gradients 3 g) Hnd) as (H1 & _ & H3 & _).
  assert (Hgone : (collect_grad_outputs op (initial_gradients 3 g)).2 !! 3%nat = None).
  { apply (H3 3%nat 0%nat 0%nat g); [repeat constructor|reflexivity|reflexivity]. }
  split; [exact H1|]. split; [exact Hgone|].
  destruct (gradient_map_visit op (collect_grad_outputs op (initial_gradients 3 g)).2 Hnd)
    as (H1' & _).
  rewrite H1'. simpl. now rewrite Hgone.
Defined.

(** C6, as the specification states it, fails: the entry the traversal
    starts from holds a gradient produced without inputs (the constant
    seed), so when the operation producing the loss is visited the gradient
    is read, the counter becomes 1, which is not 0, and the entry is not
    removed although its only reader has arrived; the same happens to an
    entry whose gradient is a sum of two contributions. *)
Lemma seed_entry_read_not_removed :
  let op := {| op_inputs := [1; 2]%nat; op_outputs := [3%nat]; has_gradient := true |} in
  let seed := {| grad_id := 7; grad_operation_inputs := 0 |} in
  let sum := {| grad_id := 8; grad_operation_inputs := 2 |} in
  (collect_grad_outputs op (initial_gradients 3 seed)).1 = [Some seed]
  /\ (collect_grad_outputs op (initial_gradients 3 seed)).2 !! 3%nat
     = Some (1%nat, 0%nat, seed)
  /\ (collect_grad_outputs op {[ 3%nat := (0%nat, 2%nat, sum) ]}).1 = [Some sum]
  /\ (collect_grad_outputs op {[ 3%nat := (0%nat, 2%nat, sum) ]}).2 !! 3%nat
     = Some (1%nat, 2%nat, sum).
Proof. repeat split; vm_compute; reflexivity. Qed.

(** ** Weight standardisation at its fixed point *)

Section StandardisationFixedPoint.
Import Standardisation.
Local Open Scope R_scope.

(** The factor a tensor at the target mean square is rescaled by. *)
Lemma rescale_factor_bounds (epsilon V : R) :
  0 <= epsilon -> 0 < V ->
  let r := rsqrt_eps epsilon V * pow_half V in
  0 < r <= 1 /\ 1 - r <= epsilon / (V + epsilon).
Proof.
  intros He HV r.
  assert (HVe : 0 < V + epsilon) by lra.
  assert (Hr : r = sqrt (V / (V + epsilon))).
  { unfold r, rsqrt_eps, pow_half. rewrite sqrt_div_alt by exact HVe.
    unfold Rdiv. ring. }
  set (q := V / (V + epsilon)) in *.
  assert (Hinv : 0 < / (V + epsilon)) by now apply Rinv_0_lt_compat.
  assert (Hqe : 1 - q = epsilon / (V + epsilon)).
  { unfold q. field. lra. }
  assert (Hq : 0 < q <= 1).
  { split.
    - unfold q, Rdiv. nra.
    - assert (0 <= epsilon / (V + epsilon)) by (unfold Rdiv; nra). lra. }
  assert (Hs0 : 0 < sqrt q) by (apply sqrt_lt_R0; lra).
  assert (Hs1 : sqrt q <= 1).
  { rewrite <- sqrt_1. apply sqrt_le_1_alt. lra. }
  assert (Hsq : sqrt q * sqrt q = q) by (apply sqrt_sqrt; lra).
  rewrite Hr. split; [lra|]. rewrite <- Hqe. nra.
Qed.

(** C8 (amended): when the mean of the squares of [v - grad], which is
    what the source measures, equals the positive target derived from
    fan-in, size and depth scaling, the standardised value assigned differs
    from [v - grad], entry by entry, by at most the relative amount
    [eps / (target + eps)] that the guard [eps >= 0] of the reciprocal
    square root introduces, and not at all when the guard is zero. *)
Theorem standardisation_fixed_point (epsilon : R)
    (get_fan_in : ModelParameter -> MtfVariable -> list Dimension)
    (p : ModelParameter) (v : MtfVariable) (g : tensor) :
  0 <= epsilon ->
  (0 < target_variance get_fan_in p v)%Q ->
  (mean_square v (residual v g) == target_variance get_fan_in p v)%Q ->
  Forall2 (fun y x =>
             Rabs (y - Q2R x)
             <= Rabs (Q2R x)
                * (epsilon / (Q2R (target_variance get_fan_in p v) + epsilon)))
          (standardised_real epsilon get_fan_in p v g) (residual v g)
  /\ (epsilon = 0 ->
      standardised_real epsilon get_fan_in p v g = map Q2R (residual v g)).
Proof.
  intros He HV Hm. unfold standardised_real.
  apply Qeq_eqR in Hm. rewrite Hm.
  set (V := Q2R (target_variance get_fan_in p v)).
  assert (HVpos : 0 < V).
  { unfold V. replace 0 with (Q2R 0) by (unfold Q2R; simpl; lra).
    now apply Qlt_Rlt. }
  destruct (rescale_factor_bounds epsilon V He HVpos) as [[Hr0 Hr1] Hr].
  set (r := rsqrt_eps epsilon V * pow_half V) in *.
  generalize (residual v g) as val. intros val. split.
  - induction val as [|x val IH]; simpl; constructor; [|exact IH].
    replace (Q2R x * rsqrt_eps epsilon V * pow_half V - Q2R x)
      with (Q2R x * (r - 1)) by (unfold r; ring).
    rewrite Rabs_mult. apply Rmult_le_compat_l; [apply Rabs_pos|].
    rewrite Rabs_left1 by lra. lra.
  - intros ->. assert (Hone : r = 1).
    { assert (0 / (V + 0) = 0) by (unfold Rdiv; ring). lra. }
    induction val as [|x val IH]; simpl; [reflexivity|]. rewrite IH. f_equal.
    replace (Q2R x * rsqrt_eps 0 V * pow_half V) with (Q2R x * r)
      by (unfold r; ring).
    rewrite Hone. ring.
Qed.

End StandardisationFixedPoint.

(** C8, as the specification states it, fails: the source measures the
    mean of the squares of [v - grad], not the variance about the mean of
    its entries. The tensor [[11; 9; 41/4; 39/4]] of shape 2 x 2 with fan-in
    2 has mean [10], variance [17/32], which is the target, and mean square
    [3217/32]; whatever the guard, the value assigned differs from it by at
    least half of each entry. *)
Lemma standardisation_rescales_at_target_variance :
  let fan_in := fun (_ : ModelParameter) (_ : MtfVariable) =>
                  [ {| dim_name := "a"; dim_size := 2 |} ] in
  let p := example_params 1 0 ∅ in
  let v := example_var "w" in
  let g := [-10; -8; -10; -(19 # 2)]%Q in
  tensor_eq (residual v g) [11; 9; 41 # 4; 39 # 4]%Q
  /\ (variance_spec v (residual v g) == target_variance fan_in p v)%Q
  /\ (target_variance fan_in p v == 17 # 32)%Q
  /\ (mean_square v (residual v g) == 3217 # 32)%Q
  /\ forall epsilon : R, (0 <= epsilon)%R ->
       Forall2 (fun y x => (Rabs (Q2R x) / 2 <= Rabs (y - Q2R x))%R)
               (Standardisation.standardised_real epsilon fan_in p v g)
               (residual v g).
Proof.
  intros fan_in p v g.
  split; [repeat constructor|].
  split; [vm_compute; reflexivity|].
  split; [vm_compute; reflexivity|].
  split; [vm_compute; reflexivity|].
  intros epsilon He. unfold Standardisation.standardised_real.
  assert (HM : Q2R (mean_square v (residual v g)) = (3217 / 32)%R).
  { rewrite (Qeq_eqR _ (3217 # 32)) by (vm_compute; reflexivity).
    unfold Q2R. simpl. lra. }
  assert (HV : Q2R (target_variance fan_in p v) = (17 / 32)%R).
  { rewrite (Qeq_eqR _ (17 # 32)) by (vm_compute; reflexivity).
    unfold Q2R. simpl. lra. }
  rewrite HM, HV.
  set (a := sqrt (17 / 32)).
  set (b := sqrt (3217 / 32 + epsilon)).
  assert (Ha : (0 <= a /\ a * a = 17 / 32)%R).
  { split; [apply sqrt_pos|apply sqrt_sqrt; lra]. }
  assert (Hb : (0 < b /\ b * b = 3217 / 32 + epsilon)%R).
  { split; [apply sqrt_lt_R0; lra|apply sqrt_sqrt; lra]. }
  assert (Hab : (2 * a < b)%R) by nra.
  set (r := (Standardisation.rsqrt_eps epsilon (3217 / 32)
             * Standardisation.pow_half (17 / 32))%R).
  assert (Hr : (0 <= r < 1 / 2)%R).
  { unfold r, Standardisation.rsqrt_eps, Standardisation.pow_half. fold a b.
    assert (Hi : (0 < / b)%R) by (apply Rinv_0_lt_compat; tauto).
    assert (Hbi : (/ b * b = 1)%R) by (apply Rinv_l; lra).
    split; nra. }
  generalize (residual v g) as val. intros val.
  induction val as [|x val IH]; simpl; constructor; [|exact IH].
  replace (Q2R x * Standardisation.rsqrt_eps epsilon (3217 / 32)
           * Standardisation.pow_half (17 / 32) - Q2R x)%R
    with (Q2R x * (r - 1))%R by (unfold r; ring).
  rewrite Rabs_mult. rewrite (Rabs_left1 (r - 1)) by lra.
  pose proof (Rabs_pos (Q2R x)). nra.
Qed.

Lemma standardisation_fixed_point_witness :
  let fan_in := fun (_ : ModelParameter) (_ : MtfVariable) =>
                  [ {| dim_name := "a"; dim_size := 2 |} ] in
  let p := example_params 1 0 ∅ in
  Forall2 (fun y x =>
             (Rabs (y - Q2R x)
              <= Rabs (Q2R x)
                 * (/ 1000000 / (Q2R (target_variance fan_in p (example_var "w"))
                                 + / 1000000)))%R)
          (Standardisation.standardised_real (/ 1000000)%R fan_in p
             (example_var "w") [0; 0; 0; 0]%Q)
          (residual (example_var "w") [0; 0; 0; 0]%Q).
Proof.
  intros fan_in p.
  apply (standardisation_fixed_point (/ 1000000)%R fan_in p (example_var "w")
           [0; 0; 0; 0]%Q).
  - lra.
  - reflexivity.
  - reflexivity.
Defined.

(** * Further properties of the optimizer *)

(** ** Failure and shape of [update] *)

Section UpdateShape.
Variable OPTIMIZERS : string -> option optimizer_fn.
Variable feature_dims_used : ModelParameter -> MtfVariable -> bool.
Variable get_fan_in : ModelParameter -> MtfVariable -> list Dimension.
Variable rsqrt_eps : Q -> Q.
Variable pow_half : Q -> Q.

Local Abbreviation update' :=
  (update OPTIMIZERS feature_dims_used get_fan_in rsqrt_eps pow_half).

Lemma fold_chain_none tokens :
  foldl (fun acc token => ctx ← acc; run_optimizer OPTIMIZERS ctx token)
        None tokens = None.
Proof. induction tokens; simpl; auto. Qed.

Lemma run_optimizer_unknown ctx token :
  OPTIMIZERS (hd EmptyString (split ":" token)) = None ->
  run_optimizer OPTIMIZERS ctx token = None.
Proof.
  unfold run_optimizer. destruct (split ":" token) as [|opt args]; [reflexivity|].
  simpl. now intros ->.
Qed.

Lemma fold_chain_some tokens : forall ctx,
  is_Some (foldl (fun acc token => ctx ← acc; run_optimizer OPTIMIZERS ctx token)
                 (Some ctx) tokens) ->
  Forall (fun token => is_Some (OPTIMIZERS (hd EmptyString (split ":" token)))) tokens.
Proof.
  induction tokens as [|token tokens IH]; intros ctx Hs; [constructor|].
  simpl in Hs.
  destruct (OPTIMIZERS (hd EmptyString (split ":" token))) as [f|] eqn:Hf.
  - constructor; [eauto|].
    destruct (run_optimizer OPTIMIZERS ctx token) as [ctx1|].
    + now apply (IH ctx1).
    + rewrite fold_chain_none in Hs. now destruct Hs.
  - rewrite (run_optimizer_unknown ctx token Hf), fold_chain_none in Hs.
    now destruct Hs.
Qed.

Lemma load_grad_buffer_params ctx : params (load_grad_buffer ctx) = params ctx.
Proof. unfold load_grad_buffer. now destruct (grad_buffer ctx). Qed.

Lemma fold_chain_unknown token tokens : forall acc,
  token ∈ tokens ->
  OPTIMIZERS (hd EmptyString (split ":" token)) = None ->
  foldl (fun acc token => ctx ← acc; run_optimizer OPTIMIZERS ctx token)
        acc tokens = None.
Proof.
  induction tokens as [|t tokens IH]; intros acc Hin Hn.
  - now apply elem_of_nil in Hin.
  - simpl. apply elem_of_cons in Hin as [<-|Hin].
    + destruct acc as [ctx|]; simpl.
      * rewrite (run_optimizer_unknown ctx token Hn). apply fold_chain_none.
      * apply fold_chain_none.
    + now apply IH.
Qed.

(** A token of the configured chain that names no optimizer of the table
    makes [update] raise, wherever in the chain it stands, also after
    optimizers that are in the table: [update] returns nothing. *)
Theorem update_raises_on_unknown_optimizer (ctx : OptimizerCtx) (token : string) :
  token ∈ split "-" (optimizer (params ctx)) ->
  OPTIMIZERS (hd EmptyString (split ":" token)) = None ->
  update' ctx = None.
Proof.
  intros Hin Hn. unfold update, run_chain.
  rewrite load_grad_buffer_params.
  now rewrite (fold_chain_unknown token _ _ Hin Hn).
Qed.

(** What [update] adds to the update operations, in order: the reset of the
    accumulation buffer if one is attached, assignments to optimizer state,
    and last a single assignment to the variable. The variable is written
    once, and the buffer is not written when none is attached. *)
Theorem update_writes_variable_once (ctx ctx' : OptimizerCtx) :
  update' ctx = Some ctx' ->
  exists (st : list (string * tensor)) (t : tensor),
    update_ops ctx'
    = update_ops ctx
      ++ match grad_buffer ctx with
         | Some buf => [assign SlotGradBuffer (zeros_like buf)]
         | None => []
         end
      ++ state_ops st
      ++ [if negb (large_tensor feature_dims_used (params ctx) (var ctx))
             || negb (weight_standardisation (params ctx))
          then assign_sub SlotVar t else assign SlotVar t].
Proof.
  unfold update. intros Hu.
  destruct (run_chain OPTIMIZERS (load_grad_buffer ctx)) as [ctx1|] eqn:Hc;
    [|discriminate].
  simpl in Hu. injection Hu as <-.
  apply run_chain_step in Hc as (Hp & Hv & _ & _ & st & Hops).
  assert (Hl : update_ops (load_grad_buffer ctx)
               = update_ops ctx
                 ++ match grad_buffer ctx with
                    | Some buf => [assign SlotGradBuffer (zeros_like buf)]
                    | None => []
                    end).
  { unfold load_grad_buffer. destruct (grad_buffer ctx); simpl;
      [reflexivity|now rewrite app_nil_r]. }
  assert (Hp' : params ctx1 = params ctx)
    by now rewrite Hp, load_grad_buffer_params.
  assert (Hv' : var ctx1 = var ctx).
  { rewrite Hv. unfold load_grad_buffer. now destruct (grad_buffer ctx). }
  set (ctx2 := decay feature_dims_used (rezero_scale ctx1)).
  assert (H2 : params ctx2 = params ctx /\ var ctx2 = var ctx
               /\ update_ops ctx2 = update_ops ctx1).
  { unfold ctx2, decay, rezero_scale.
    repeat match goal with |- context [if ?b then _ else _] => destruct b end;
      simpl; auto. }
  destruct H2 as (Hp2 & Hv2 & Ho2).
  exists st. unfold write_back. rewrite Hp2, Hv2.
  destruct (negb (large_tensor feature_dims_used (params ctx) (var ctx))
            || negb (weight_standardisation (params ctx)));
    eexists; simpl; rewrite Ho2, Hops, Hl, <- !app_assoc; reflexivity.
Qed.

End UpdateShape.

Lemma update_raises_on_unknown_optimizer_witness :
  update sgd_only (fun _ _ => false) (fun _ _ => []) (fun x => x) (fun x => x)
    {| params :=
         {| optimizer := "sgd-adam:0.9"; rezero_lr_multiplier := 1;
            feature_dims := []; weight_decay := 0;
            weight_standardisation := false; scale_by_depth := false;
            n_blocks := 1; grad_accumulation := 1; opt_beta1 := 9 # 10;
            opt_beta2 := 99 # 100; multi_loss_strategy := "linear";
            name_to_variable := ∅ |};
       var := example_var "w"; grad := [1; 1; 1; 1]%Q;
       grad_buffer := Some [1; 1; 1; 1]%Q;
       update_ops := []; learning_rate := 1 |} = None.
Proof.
  apply (update_raises_on_unknown_optimizer sgd_only (fun _ _ => false)
           (fun _ _ => []) (fun x => x) (fun x => x) _ "adam:0.9").
  - apply list_elem_of_further, list_elem_of_here.
  - reflexivity.
Defined.

Lemma update_writes_variable_once_witness :
  exists st t,
    update_ops (example_ctx (example_params 1 0 ∅) "w" [1; 1; 1; 1]%Q)
      ++ [] ++ state_ops st ++ [assign_sub SlotVar t]
    = [assign_sub SlotVar [1; 1; 1; 1]%Q].
Proof.
  destruct (update_writes_variable_once sgd_only (fun _ _ => false) (fun _ _ => [])
              (fun x => x) (fun x => x)
              (example_ctx (example_params 1 0 ∅) "w" [1; 1; 1; 1]%Q) _ eq_refl)
    as (st & t & H).
  exists st, t. symmetry. exact H.
Defined.

(** ** Weight decay and the tensors exempt from it *)

Section DecayProperties.
Variable OPTIMIZERS : string -> option optimizer_fn.
Variable feature_dims_used : ModelParameter -> MtfVariable -> bool.
Variable get_fan_in : ModelParameter -> MtfVariable -> list Dimension.
Variable rsqrt_eps : Q -> Q.
Variable pow_half : Q -> Q.

Local Abbreviation update' :=
  (update OPTIMIZERS feature_dims_used get_fan_in rsqrt_eps pow_half).

Lemma chain_from_load ctx ctx1 :
  run_chain OPTIMIZERS (load_grad_buffer ctx) = Some ctx1 ->
  params ctx1 = params ctx /\ var ctx1 = var ctx
  /\ learning_rate ctx1 = learning_rate ctx
  /\ exists st,
       update_ops ctx1
       = update_ops ctx
         ++ match grad_buffer ctx with
            | Some buf => [assign SlotGradBuffer (zeros_like buf)]
            | None => []
            end
         ++ state_ops st.
Proof.
  intros Hc. apply run_chain_step in Hc as (Hp & Hv & _ & Hl & st & Hops).
  unfold load_grad_buffer in *.
  destruct (grad_buffer ctx); simpl in *; repeat split; try assumption;
    exists st; rewrite Hops; [now rewrite <- app_assoc|reflexivity].
Qed.

Lemma rezero_scale_fields ctx :
  params (rezero_scale ctx) = params ctx /\ var (rezero_scale ctx) = var ctx
  /\ update_ops (rezero_scale ctx) = update_ops ctx
  /\ learning_rate (rezero_scale ctx) = learning_rate ctx.
Proof. unfold rezero_scale. destruct (contains _ _); simpl; auto. Qed.

Lemma value_after_prefix st buf sts :
  stored_value
    (run_ops st (match buf with
                 | Some b => [assign SlotGradBuffer (zeros_like b)]
                 | None => []
                 end ++ state_ops sts))
  = stored_value st.
Proof.
  rewrite run_ops_app, (proj1 (run_state_ops _ _)). now destruct buf.
Qed.

Lemma decayed_value (wd lr : Q) (v g : tensor) :
  tensor_eq (sub v (add g (map (fun x => wd * x * lr)%Q v)))
            (zip_with (fun x y => x * (1 - wd * lr) - y)%Q v g).
Proof.
  revert g. induction v as [|x v IH]; intros [|y g]; simpl; constructor.
  - ring.
  - apply IH.
Qed.

(** For a large tensor with positive weight decay and no weight
    standardisation, running the operations of [update] leaves
    [v * (1 - weight_decay * learning_rate) - g] in the variable, entry by
    entry, where [g] is the gradient after the chain and the rezero
    scaling: the decay term is scaled by the learning rate and is not fed
    through the chain. *)
Theorem decoupled_weight_decay (ctx ctx1 : OptimizerCtx) (st : VarStore) :
  run_chain OPTIMIZERS (load_grad_buffer ctx) = Some ctx1 ->
  large_tensor feature_dims_used (params ctx) (var ctx) = true ->
  (0 < weight_decay (params ctx))%Q ->
  weight_standardisation (params ctx) = false ->
  update_ops ctx = [] ->
  stored_value st = var_value (var ctx) ->
  exists ctx',
    update' ctx = Some ctx'
    /\ tensor_eq (stored_value (run_ops st (update_ops ctx')))
         (zip_with (fun x y =>
                      x * (1 - weight_decay (params ctx) * learning_rate ctx) - y)%Q
                   (var_value (var ctx)) (grad (rezero_scale ctx1))).
Proof.
  intros Hc Hlarge Hwd Hws Hops Hst.
  destruct (chain_from_load _ _ Hc) as (Hp & Hv & Hl & sts & Ho).
  destruct (rezero_scale_fields ctx1) as (Hp2 & Hv2 & Ho2 & Hl2).
  eexists. split; [unfold update; rewrite Hc; reflexivity|].
  assert (Hnle : Qle_bool (weight_decay (params ctx)) 0 = false).
  { destruct (Qle_bool (weight_decay (params ctx)) 0) eqn:Hle; [|reflexivity].
    apply Qle_bool_iff in Hle. exfalso. apply (Qlt_not_le _ _ Hwd Hle). }
  set (c2 := rezero_scale ctx1) in *.
  assert (Hd : decay feature_dims_used c2
               = set_grad c2
                   (add (grad c2)
                        (map (fun x => weight_decay (params ctx) * x
                                       * learning_rate ctx)%Q
                             (var_value (var ctx))))).
  { unfold decay. rewrite Hp2, Hv2, Hp, Hv, Hlarge, Hnle, Hl2, Hl. reflexivity. }
  rewrite Hd. unfold write_back. simpl params. simpl var.
  rewrite Hp2, Hv2, Hp, Hv, Hws, orb_true_r. simpl update_ops.
  rewrite Ho2, Ho, Hops. simpl app.
  rewrite run_ops_app. simpl (run_ops _ [_]).
  rewrite value_after_prefix, Hst.
  apply decayed_value.
Qed.

(** A variable with at most one entry (a scalar such as a rezero gate) is
    never large: whatever its name, the weight decay and the weight
    standardisation settings, [update] ends with the plain subtraction of
    the gradient that leaves the chain and the rezero scaling. *)
Theorem scalars_get_plain_subtraction (ctx ctx1 : OptimizerCtx) :
  run_chain OPTIMIZERS (load_grad_buffer ctx) = Some ctx1 ->
  (shape_size (var_dims (var ctx)) <= 1)%Z ->
  large_tensor feature_dims_used (params ctx) (var ctx) = false
  /\ exists ctx',
       update' ctx = Some ctx'
       /\ update_ops ctx'
          = update_ops ctx1 ++ [assign_sub SlotVar (grad (rezero_scale ctx1))].
Proof.
  intros Hc Hsize.
  assert (Hlarge : large_tensor feature_dims_used (params ctx) (var ctx) = false).
  { unfold large_tensor.
    assert (Hs : (1 <? shape_size (var_dims (var ctx)))%Z = false)
      by (apply Z.ltb_ge; exact Hsize).
    rewrite Hs, andb_false_r. reflexivity. }
  split; [exact Hlarge|].
  destruct (chain_from_load _ _ Hc) as (Hp & Hv & _).
  destruct (rezero_scale_fields ctx1) as (Hp2 & Hv2 & Ho2 & _).
  assert (Hl2 : large_tensor feature_dims_used (params (rezero_scale ctx1))
                  (var (rezero_scale ctx1)) = false)
    by now rewrite Hp2, Hv2, Hp, Hv.
  eexists. split; [unfold update; rewrite Hc; reflexivity|].
  rewrite (decay_not_large _ _ Hl2).
  rewrite (write_back_not_large _ get_fan_in rsqrt_eps pow_half _ Hl2).
  simpl. now rewrite Ho2.
Qed.

End DecayProperties.

Lemma decoupled_weight_decay_witness :
  let ctx := example_ctx (example_params 1 (1 # 10) ∅) "w" [1; 1; 1; 1]%Q in
  exists ctx',
    update sgd_only (fun _ _ => false) (fun _ _ => []) (fun x => x) (fun x => x) ctx
    = Some ctx'
    /\ tensor_eq
         (stored_value
            (run_ops {| stored_value := [1; 1; 1 # 4; 1 # 4]%Q;
                        stored_buffer := None; stored_state := ∅ |}
                     (update_ops ctx')))
         [(-1 # 10); (-1 # 10); (-31 # 40); (-31 # 40)]%Q.
Proof.
  intros ctx.
  destruct (decoupled_weight_decay sgd_only (fun _ _ => false) (fun _ _ => [])
              (fun x => x) (fun x => x) ctx ctx
              {| stored_value := [1; 1; 1 # 4; 1 # 4]%Q;
                 stored_buffer := None; stored_state := ∅ |})
    as (ctx' & Hu & Hv); try reflexivity.
  exists ctx'. split; [exact Hu|].
  eapply tensor_eq_trans; [exact Hv|].
  repeat constructor.
Defined.

Lemma scalars_get_plain_subtraction_witness :
  let ctx :=
    {| params := example_params 1 (1 # 10) ∅;
       var := {| var_name := "block/rezero"; var_dims := []; var_value := [0%Q] |};
       grad := [1%Q]; grad_buffer := None; update_ops := []; learning_rate := 1 |} in
  exists ctx',
    update sgd_only (fun _ _ => true) (fun _ _ => []) (fun x => x) (fun x => x) ctx
    = Some ctx'
    /\ update_ops ctx' = [assign_sub SlotVar (multiply (1 # 2) [1%Q])].
Proof.
  intros ctx.
  destruct (scalars_get_plain_subtraction sgd_only (fun _ _ => true) (fun _ _ => [])
              (fun x => x) (fun x => x) ctx ctx eq_refl) as [_ H].
  - vm_compute. discriminate.
  - exact H.
Defined.

(** ** The target variance and what standardisation achieves *)

Section VarianceProperties.
Variable get_fan_in : ModelParameter -> MtfVariable -> list Dimension.

Local Open Scope Q_scope.

Lemma variance_formula_positive (m s : Q) :
  1 <= m -> m <= s -> 1 < s ->
  0 < (1 - 1 / m) / s ^ 2 + 1 / m - 2 / s + 1 / m.
Proof.
  intros Hm Hms Hs.
  assert (Hm0 : 0 < m) by Lqa.lra. assert (Hs0 : 0 < s) by Lqa.lra.
  assert (Heq : (1 - 1 / m) / s ^ 2 + 1 / m - 2 / s + 1 / m
                == ((m - 1) + 2 * s * (s - m)) / (m * (s * s))).
  { simpl. field. split; Lqa.lra. }
  rewrite Heq. apply Qlt_shift_div_l.
  - apply Qmult_lt_0_compat; [exact Hm0|]. now apply Qmult_lt_0_compat.
  - rewrite Qmult_0_l. Lqa.nra.
Qed.

(** When the square of the size of the tensor fits numpy's int64, the
    fan-in is between 1 and the size, the size is above 1 (as it is for
    every large tensor) and the depth, if it scales the variance, is
    positive, the target variance is positive, so that its square root is
    taken of a positive number. *)
Theorem target_variance_positive (p : ModelParameter) (v : MtfVariable) :
  (shape_size (var_dims v) ^ 2 < 2 ^ 63)%Z ->
  (1 <= shape_size (get_fan_in p v) <= shape_size (var_dims v))%Z ->
  (1 < shape_size (var_dims v))%Z ->
  (scale_by_depth p = true -> 0 < n_blocks p)%Z ->
  0 < target_variance get_fan_in p v.
Proof.
  intros _ [Hf1 Hfs] Hs Hd. unfold target_variance.
  set (f := shape_size (get_fan_in p v)) in *.
  set (s := shape_size (var_dims v)) in *.
  assert (Hdiv : (s / f <= s)%Z).
  { apply Z.div_le_upper_bound; nia. }
  assert (Hpos : 0 < (1 - 1 / inject_Z (Z.max f (s / f))) / inject_Z s ^ 2
                     + 1 / inject_Z (Z.max f (s / f)) - 2 / inject_Z s
                     + 1 / inject_Z (Z.max f (s / f))).
  { apply variance_formula_positive.
    - change 1 with (inject_Z 1). rewrite <- Zle_Qle. lia.
    - rewrite <- Zle_Qle. lia.
    - change 1 with (inject_Z 1). rewrite <- Zlt_Qlt. lia. }
  destruct (scale_by_depth p); [|exact Hpos].
  apply Qmult_lt_0_compat; [exact Hpos|].
  change 0 with (inject_Z 0). rewrite <- Zlt_Qlt. now apply Hd.
Qed.

End VarianceProperties.

Section StandardisedMeanSquare.
Import Standardisation.
Variable get_fan_in : ModelParameter -> MtfVariable -> list Dimension.

Local Open Scope R_scope.

Lemma mean_square_Q2R (v : MtfVariable) (val : tensor) :
  Q2R (mean_square v val) = mean_square_real v (map Q2R val).
Proof.
  unfold mean_square, mean_square_real.
  induction val as [|x val IH]; simpl.
  - unfold Q2R. simpl. lra.
  - rewrite Q2R_plus, !Q2R_mult, IH. reflexivity.
Qed.

Lemma mean_square_real_scaled (v : MtfVariable) (r : R) (val : list R) :
  mean_square_real v (map (fun x => x * r) val)
  = r * r * mean_square_real v val.
Proof.
  unfold mean_square_real. induction val as [|x val IH]; simpl; [ring|].
  rewrite IH. ring.
Qed.

(** Weight standardisation reaches its target: the mean square of the value
    it assigns is the target variance times [m / (m + eps)], where [m] is
    the mean square of [v - grad]; without the guard it is the target
    variance itself. *)
Theorem standardised_mean_square (epsilon : R) (p : ModelParameter)
    (v : MtfVariable) (g : tensor) :
  let m := Q2R (mean_square v (residual v g)) in
  let target := Q2R (target_variance get_fan_in p v) in
  0 <= target ->
  0 < m + epsilon ->
  mean_square_real v (standardised_real epsilon get_fan_in p v g)
  = target * (m / (m + epsilon))
  /\ (epsilon = 0 ->
      mean_square_real v (standardised_real epsilon get_fan_in p v g) = target).
Proof.
  intros m target Ht Hm.
  assert (Hmain : mean_square_real v (standardised_real epsilon get_fan_in p v g)
                  = target * (m / (m + epsilon))).
  { unfold standardised_real. fold m target.
    set (r := rsqrt_eps epsilon m * pow_half target).
    rewrite (map_ext _ (fun x => Q2R x * r)) by (intros; unfold r; ring).
    rewrite <- (map_map Q2R (fun x => x * r)).
    rewrite mean_square_real_scaled, <- mean_square_Q2R. fold m.
    assert (Hr : r * r = target / (m + epsilon)).
    { unfold r, rsqrt_eps, pow_half.
      assert (Hs : sqrt (m + epsilon) <> 0).
      { intros H0. apply sqrt_eq_0 in H0; lra. }
      replace (/ sqrt (m + epsilon) * sqrt target
               * (/ sqrt (m + epsilon) * sqrt target))
        with ((sqrt target * sqrt target)
              / (sqrt (m + epsilon) * sqrt (m + epsilon)))
        by (field; exact Hs).
      rewrite !sqrt_sqrt by lra. reflexivity. }
    rewrite Hr. field. lra. }
  split; [exact Hmain|].
  intros ->. rewrite Hmain. field. lra.
Qed.

End StandardisedMeanSquare.

Lemma target_variance_positive_witness :
  (0 < target_variance (fun _ _ => [ {| dim_name := "a"; dim_size := 2 |} ])
         (example_params 1 0 ∅) (example_var "w"))%Q.
Proof.
  apply target_variance_positive.
  - reflexivity.
  - vm_compute. split; discriminate.
  - reflexivity.
  - discriminate.
Defined.

Lemma standardised_mean_square_witness :
  let fan_in := fun (_ : ModelParameter) (_ : MtfVariable) =>
                  [ {| dim_name := "a"; dim_size := 2 |} ] in
  mean_square_real (example_var "w")
    (Standardisation.standardised_real 0 fan_in (example_params 1 0 ∅)
       (example_var "w") [1; 0; 0; 0]%Q)
  = Q2R (target_variance fan_in (example_params 1 0 ∅) (example_var "w")).
Proof.
  intros fan_in.
  apply (standardised_mean_square fan_in 0%R (example_params 1 0 ∅)
           (example_var "w") [1; 0; 0; 0]%Q).
  - vm_compute. lra.
  - vm_compute. lra.
  - reflexivity.
Defined.

(** ** Accumulation steps and apply steps on the stored tensors *)

Section StoreProperties.
Variable OPTIMIZERS : string -> option optimizer_fn.
Variable feature_dims_used : ModelParameter -> MtfVariable -> bool.
Variable get_fan_in : ModelParameter -> MtfVariable -> list Dimension.
Variable rsqrt_eps : Q -> Q.
Variable pow_half : Q -> Q.
Variables (scope : string) (p : ModelParameter) (lr : Q).
Variables (name : string) (dims : list Dimension).

Local Abbreviation steps :=
  (accumulate_steps OPTIMIZERS feature_dims_used get_fan_in rsqrt_eps pow_half
                    scope p lr name dims).
Local Abbreviation step_in :=
  (train_step OPTIMIZERS feature_dims_used get_fan_in rsqrt_eps pow_half
              scope p lr name dims).

Lemma multiply_one (g : tensor) : tensor_eq g (multiply 1 g).
Proof. induction g; simpl; constructor; [ring|assumption]. Qed.

(** From an unallocated buffer, [k + 1] accumulate steps with the same
    gradient [g] leave the variable and the optimizer state as they were and
    [(2^(k+1) - 1) * g] in the buffer: [g], [3g], [7g], ... rather than the
    sum [g], [2g], [3g], ... *)
Theorem accumulated_buffer_closed_form (k : nat) (v g : tensor)
    (states : gmap string tensor) :
  List.length g = List.length v ->
  exists b,
    steps (S k) {| stored_value := v; stored_buffer := None;
                   stored_state := states |} g
    = Some {| stored_value := v; stored_buffer := Some b; stored_state := states |}
    /\ tensor_eq b (multiply (inject_Z (2 ^ Z.of_nat (S k)) - 1) g).
Proof.
  intros Hlen.
  set (st0 := {| stored_value := v; stored_buffer := None; stored_state := states |}).
  destruct (accumulate_steps_buffer OPTIMIZERS feature_dims_used get_fan_in
              rsqrt_eps pow_half scope p lr name dims k st0 g) as [b Hb].
  exists b. split; [exact Hb|].
  set (b1 := add (zeros_like (add g (zeros_like v))) (add g (zeros_like v))).
  set (st1 := {| stored_value := v; stored_buffer := Some b1;
                 stored_state := states |}).
  assert (Hstep : steps (S k) st0 g = steps k st1 g) by reflexivity.
  destruct (accumulate_steps_doubling OPTIMIZERS feature_dims_used get_fan_in
              rsqrt_eps pow_half scope p lr name dims k st1 g b1 1 eq_refl)
    as (st' & b' & H1 & H2 & H3).
  { eapply tensor_eq_trans; [apply add_zeros_l; exact Hlen|apply multiply_one]. }
  rewrite Hstep, H1 in Hb. injection Hb as ->. simpl in H2. injection H2 as <-.
  eapply tensor_eq_trans; [exact H3|]. clear.
  replace (Z.of_nat (S k)) with (Z.of_nat k + 1)%Z by lia.
  rewrite Z.pow_add_r by lia. rewrite inject_Z_mult.
  change (inject_Z (2 ^ 1)) with 2%Q.
  induction g as [|x g IH]; simpl; constructor; [ring|exact IH].
Qed.

(** In any mode other than "accumulate", when the name looked up on lines
    170-171 is not registered in the graph, the step runs [update] on the
    raw gradient and neither reads nor resets the accumulation buffer. *)
Theorem update_without_registered_buffer (fn : string) (st st' : VarStore)
    (g : tensor) :
  fn <> "accumulate" ->
  full_name scope (make_ctx p lr name dims st g) ∉ name_to_variable p ->
  step_in fn st g = Some st' ->
  stored_buffer st' = stored_buffer st
  /\ exists ctx',
       update OPTIMIZERS feature_dims_used get_fan_in rsqrt_eps pow_half
              (make_ctx p lr name dims st g) = Some ctx'
       /\ st' = run_ops st (update_ops ctx').
Proof.
  intros Hfn Hname Hstep.
  unfold train_step, apply_fn, select_fn, attach_grad_buffer in Hstep.
  destruct (String.eqb_spec fn "accumulate") as [|_]; [contradiction|].
  simpl params in Hstep.
  rewrite (bool_decide_eq_false_2 _ Hname) in Hstep. simpl in Hstep.
  unfold update in Hstep |- *.
  destruct (run_chain OPTIMIZERS (load_grad_buffer (make_ctx p lr name dims st g)))
    as [ctx1|] eqn:Hc; [|discriminate].
  simpl in Hstep. injection Hstep as <-.
  split; [|eexists; split; reflexivity].
  apply run_chain_step in Hc as (_ & _ & _ & _ & sts & Hops).
  destruct (final_op_on_var feature_dims_used get_fan_in rsqrt_eps pow_half ctx1)
    as (a & Ha & Hbuf).
  rewrite Ha, Hops. simpl app at 2.
  rewrite run_ops_app. simpl (run_ops _ [a]). rewrite Hbuf.
  apply run_state_ops.
Qed.

End StoreProperties.

Lemma accumulated_buffer_closed_form_witness :
  exists b,
    accumulate_steps sgd_only (fun _ _ => false) (fun _ _ => []) (fun x => x)
      (fun x => x) "opt" (example_params 4 0 ∅) 1 "w" [] 3
      {| stored_value := [1%Q]; stored_buffer := None; stored_state := ∅ |}
      [(2 # 10)%Q]
    = Some {| stored_value := [1%Q]; stored_buffer := Some b; stored_state := ∅ |}
    /\ tensor_eq b [(14 # 10)%Q].
Proof.
  destruct (accumulated_buffer_closed_form sgd_only (fun _ _ => false)
              (fun _ _ => []) (fun x => x) (fun x => x) "opt"
              (example_params 4 0 ∅) 1 "w" [] 2 [1%Q] [(2 # 10)%Q] ∅ eq_refl)
    as (b & H1 & H2).
  exists b. split; [exact H1|].
  eapply tensor_eq_trans; [exact H2|]. repeat constructor.
Defined.

Lemma update_without_registered_buffer_witness :
  let st := {| stored_value := [1%Q]; stored_buffer := Some [(2 # 10)%Q];
               stored_state := ∅ |} in
  exists st',
    train_step sgd_only (fun _ _ => false) (fun _ _ => []) (fun x => x)
      (fun x => x) "opt" (example_params 2 0 ∅) 1 "w" [] "update" st
      [(2 # 10)%Q] = Some st'
    /\ stored_buffer st' = Some [(2 # 10)%Q].
Proof.
  intros st. eexists. split; [reflexivity|].
  apply (update_without_registered_buffer sgd_only (fun _ _ => false)
           (fun _ _ => []) (fun x => x) (fun x => x) "opt"
           (example_params 2 0 ∅) 1 "w" [] "update" st _ [(2 # 10)%Q]).
  - discriminate.
  - simpl name_to_variable. apply not_elem_of_empty.
  - reflexivity.
Defined.

(** ** More on the blend coefficient and the losses of the heads *)

Section GammaProperties.
Local Open Scope Q_scope.

(** With a positive denominator, the coefficient is positive, and it is at
    most 1, so that the blended loss is a convex combination, exactly when
    one of the two guards fires or [g1.g1 + 3 * g1.g2 >= 0]. *)
Theorem mgda_gamma_convex_iff (v1v1 v1v2 v2v2 : Q) :
  0 < mgda_denominator v1v1 v1v2 v2v2 ->
  0 < mgda_gamma v1v1 v1v2 v2v2
  /\ (mgda_gamma v1v1 v1v2 v2v2 <= 1
      <-> v1v1 <= v1v2 \/ v2v2 <= v1v2 \/ 0 <= v1v1 + 3 * v1v2).
Proof.
  intros HD. rewrite mgda_gamma_branches.
  destruct (greater_equal v1v2 v1v1) eqn:H1.
  { apply greater_equal_true in H1. split; [reflexivity|].
    split; [auto|]. intros _. unfold min_gamma. unfold Qle. simpl. lia. }
  destruct (greater_equal v1v2 v2v2) eqn:H2.
  { apply greater_equal_true in H2. split; [reflexivity|].
    split; [auto|]. intros _. unfold min_gamma. unfold Qle. simpl. lia. }
  assert (H1' : v1v2 < v1v1).
  { apply Qnot_le_lt. intros H. apply greater_equal_true in H. congruence. }
  assert (H2' : v1v2 < v2v2).
  { apply Qnot_le_lt. intros H. apply greater_equal_true in H. congruence. }
  unfold reciprocal. set (D := mgda_denominator v1v1 v1v2 v2v2) in *.
  assert (HDi : 0 < / D) by now apply Qinv_lt_0_compat.
  split.
  - apply Qmult_lt_0_compat; [Lqa.lra|exact HDi].
  - change ((v2v2 - v1v2) * / D) with ((v2v2 - v1v2) / D). split.
    + intros Hle. right. right.
      apply (Qmult_le_compat_r _ _ D) in Hle; [|Lqa.lra].
      rewrite Qmult_1_l in Hle.
      unfold Qdiv in Hle. rewrite <- Qmult_assoc, (Qmult_comm (/ D)) in Hle.
      rewrite Qmult_inv_r, Qmult_1_r in Hle by Lqa.lra.
      unfold D, mgda_denominator in Hle. Lqa.lra.
    + intros [H|[H|H]]; [Lqa.lra..|].
      apply Qle_shift_div_r; [exact HD|].
      rewrite Qmult_1_l. unfold D, mgda_denominator. Lqa.lra.
Qed.

Lemma mapM_ext_in {A B} (f g : A -> option B) (l : list A) :
  (forall x, In x l -> f x = g x) -> mapM f l = mapM g l.
Proof.
  induction l as [|x l IH]; intros H; [reflexivity|].
  simpl. rewrite (H x) by now left.
  rewrite IH by (intros y Hy; apply H; now right). reflexivity.
Qed.

Lemma lookup_tail_indices (pre rest : list Q) :
  mapM (fun i => (pre ++ rest) !! i) (seq (List.length pre) (List.length rest))
  = Some rest.
Proof.
  revert pre. induction rest as [|x rest IH]; intros pre; [reflexivity|].
  simpl. rewrite list_lookup_middle by reflexivity. simpl.
  specialize (IH (pre ++ [x])). rewrite <- app_assoc, length_app in IH.
  simpl in IH. rewrite Nat.add_1_r in IH. rewrite IH. reflexivity.
Qed.

(** Only the third head is ever replaced: without "mgda", or with fewer
    than three losses, every head is differentiated for its own loss; with
    "mgda" and at least three, the third loss is dropped in favour of the
    blend of the first two and all others are kept. *)
Theorem head_losses_replace_third (mgda : bool) (loss_list : list Q)
    (loss_1__loss_1 loss_1__loss_2 loss_2__loss_2 : tensor) :
  head_losses mgda loss_list loss_1__loss_1 loss_1__loss_2 loss_2__loss_2
  = Some match loss_list with
         | loss1 :: loss2 :: _ :: more =>
             if mgda
             then let gamma := mgda_gamma (reduce_sum loss_1__loss_1)
                                          (reduce_sum loss_1__loss_2)
                                          (reduce_sum loss_2__loss_2) in
                  loss1 :: loss2 :: loss1 * gamma + loss2 * (1 - gamma) :: more
             else loss_list
         | _ => loss_list
         end.
Proof.
  unfold head_losses.
  assert (Hplain : forall l : list Q,
             mapM (fun i => l !! i) (seq 0 (List.length l)) = Some l)
    by (intros l; apply (lookup_tail_indices [] l)).
  destruct mgda.
  - destruct loss_list as [|l0 [|l1 [|l2 more]]]; try reflexivity.
    assert (Hrest : mapM (fun i => head_loss true i (l0 :: l1 :: l2 :: more)
                                     loss_1__loss_1 loss_1__loss_2 loss_2__loss_2)
                         (seq 3 (List.length more)) = Some more).
    { transitivity (mapM (fun i => ([l0; l1; l2] ++ more) !! i)
                         (seq 3 (List.length more)));
        [|apply (lookup_tail_indices [l0; l1; l2] more)].
      apply mapM_ext_in. intros i Hi. apply in_seq in Hi.
      unfold head_loss.
      destruct (Nat.eqb_spec i 2) as [->|_]; [lia|reflexivity]. }
    change (seq 0 (List.length (l0 :: l1 :: l2 :: more)))
      with (0 :: 1 :: 2 :: seq 3 (List.length more))%nat.
    set (f := fun i => head_loss true i (l0 :: l1 :: l2 :: more)
                         loss_1__loss_1 loss_1__loss_2 loss_2__loss_2) in *.
    change (mapM f (0 :: 1 :: 2 :: seq 3 (List.length more))%nat)
      with (y0 ← f 0%nat; k0 ← (y1 ← f 1%nat; k1 ← (y2 ← f 2%nat;
              k2 ← mapM f (seq 3 (List.length more)); mret (y2 :: k2));
              mret (y1 :: k1)); mret (y0 :: k0)).
    rewrite Hrest. reflexivity.
  - destruct loss_list as [|l0 [|l1 [|l2 more]]]; apply (Hplain _).
Qed.

End GammaProperties.

Lemma mgda_gamma_convex_iff_witness :
  (0 < mgda_gamma 9 3 5 /\ mgda_gamma 9 3 5 <= 1)%Q.
Proof.
  destruct (mgda_gamma_convex_iff 9 3 5) as [Hpos Hle].
  - reflexivity.
  - split; [exact Hpos|]. apply Hle. right. right. discriminate.
Defined.

(** ** More on the downstream set *)

Section DownstreamProperties.
Implicit Types (op : Operation) (operations : list Operation).
Implicit Types (xs : list nat) (t : nat).

Lemma compute_downstream_take_S operations xs i op :
  operations !! i = Some op ->
  compute_downstream (take (S i) operations) xs
  = downstream_step (compute_downstream (take i operations) xs) op.
Proof.
  intros Hi. rewrite (take_S_r _ _ _ Hi). apply compute_downstream_snoc.
Qed.

Lemma compute_downstream_prefix operations xs (n k : nat) t :
  t ∈ compute_downstream (take n operations) xs ->
  t ∈ compute_downstream (take (n + k) operations) xs.
Proof.
  intros Ht. induction k as [|k IH]; [now rewrite Nat.add_0_r|].
  replace (n + S k)%nat with (S (n + k)) by lia.
  destruct (operations !! (n + k)%nat) as [op|] eqn:Hop.
  - rewrite (compute_downstream_take_S _ _ _ _ Hop).
    apply downstream_step_elem. now left.
  - apply lookup_ge_None in Hop.
    rewrite take_ge by lia. now rewrite take_ge in IH by lia.
Qed.

(** On operations in construction order the single scan reaches a closed
    set: every gradient-capable operation that reads a tensor of the final
    set has all its outputs in the final set. *)
Theorem downstream_closed (operations : list Operation) (xs : list nat)
    (i : nat) (op : Operation) (x t : nat) :
  construction_ordered operations ->
  operations !! i = Some op ->
  has_gradient op = true ->
  x ∈ op_inputs op ->
  x ∈ compute_downstream operations xs ->
  t ∈ op_outputs op ->
  t ∈ compute_downstream operations xs.
Proof.
  intros Hord Hi Hg Hx HxD Ht.
  apply compute_downstream_elem. right. exists i, op.
  split; [exact Hi|]. split; [exact Hg|]. split; [|exact Ht].
  exists x. split; [exact Hx|].
  apply compute_downstream_elem in HxD as [Hseed|(j & op' & Hj & Hg' & Hx' & Hout)].
  - apply compute_downstream_elem. now left.
  - pose proof (Hord i j op op' x Hi Hj Hx Hout) as Hlt.
    replace i with (S j + (i - S j))%nat by lia.
    apply compute_downstream_prefix.
    rewrite (compute_downstream_take_S _ _ _ _ Hj).
    apply downstream_step_elem. right. tauto.
Qed.

(** Without trainable variables nothing is downstream, and the traversal
    skips every operation whatever gradients its outputs carry. *)
Theorem no_trainable_no_downstream (operations : list Operation) :
  compute_downstream operations [] = ∅
  /\ forall op grad_outputs,
       skipped op grad_outputs (compute_downstream operations []) = true.
Proof.
  assert (He : compute_downstream operations [] = ∅).
  { induction operations as [|op operations IH] using rev_ind; [reflexivity|].
    rewrite compute_downstream_snoc, IH. unfold downstream_step.
    rewrite bool_decide_eq_false_2, andb_false_r; [reflexivity|].
    intros Hne. apply Hne. apply intersection_empty_r_L. }
  split; [exact He|]. intros op gos. rewrite He. unfold skipped.
  rewrite (bool_decide_eq_false_2 (list_to_set (op_inputs op) ∩ ∅ ≠ (∅ : gset nat)))
    by (intros Hne; apply Hne; apply intersection_empty_r_L).
  apply orb_true_r.
Qed.

End DownstreamProperties.

Lemma downstream_closed_witness :
  3%nat ∈ compute_downstream example_operations [0%nat].
Proof.
  apply (downstream_closed example_operations [0%nat] 3
           {| op_inputs := [1; 2]%nat; op_outputs := [3%nat]; has_gradient := true |}
           1%nat 3%nat).
  - intros i j op op' x Hi Hj Hx Hout.
    destruct i as [|[|[|[|[|i]]]]]; simpl in Hi; try discriminate;
      injection Hi as <-; simpl in Hx;
      destruct j as [|[|[|[|[|j]]]]]; simpl in Hj; try discriminate;
      injection Hj as <-; simpl in Hout; try lia;
      apply list_elem_of_In in Hx, Hout; simpl in Hx, Hout; intuition lia.
  - reflexivity.
  - reflexivity.
  - repeat constructor.
  - vm_compute. reflexivity.
  - repeat constructor.
Defined.

(** ** More on the gradient map *)

Section GradientMapProperties.
Implicit Types (m : GradientMap) (out t : nat).

Lemma collect_absent outs : forall acc m,
  Forall (fun out => m !! out = None) outs ->
  foldl collect_output (acc, m) outs
  = (acc ++ replicate (List.length outs) None, m).
Proof.
  induction outs as [|out outs IH]; intros acc m Hn.
  - simpl. now rewrite app_nil_r.
  - apply Forall_cons in Hn as [Ho Hn].
    change (foldl collect_output (acc, m) (out :: outs))
      with (foldl collect_output (collect_output (acc, m) out) outs).
    unfold collect_output at 2. rewrite Ho, (IH _ _ Hn), <- app_assoc.
    reflexivity.
Qed.

(** An operation none of whose outputs has an entry gets no gradient at
    all, leaves the gradient map as it is, and is skipped. *)
Theorem no_entry_no_visit (op : Operation) (m : GradientMap)
    (downstream : gset nat) :
  Forall (fun out => m !! out = None) (op_outputs op) ->
  collect_grad_outputs op m = (replicate (List.length (op_outputs op)) None, m)
  /\ skipped op (collect_grad_outputs op m).1 downstream = true.
Proof.
  intros Hn. unfold collect_grad_outputs.
  rewrite (collect_absent _ [] m Hn). simpl. split; [reflexivity|].
  unfold skipped. simpl.
  assert (He : existsb (fun g : option GradTensor => bool_decide (is_Some g))
                       (replicate (List.length (op_outputs op)) None) = false).
  { induction (List.length (op_outputs op)) as [|n IH]; [reflexivity|].
    simpl. exact IH. }
  rewrite He. simpl. now rewrite orb_true_r.
Qed.

Lemma collect_keeps_overdue outs : forall acc m t c0 c1 g,
  m !! t = Some (c0, c1, g) ->
  (grad_operation_inputs g <= c0)%nat ->
  exists c0',
    (foldl collect_output (acc, m) outs).2 !! t = Some (c0', c1, g)
    /\ (c0 <= c0')%nat.
Proof.
  induction outs as [|out outs IH]; intros acc m t c0 c1 g Ht Hc.
  - exists c0. auto.
  - change (foldl collect_output (acc, m) (out :: outs))
      with (foldl collect_output (collect_output (acc, m) out) outs).
    destruct (collect_output_spec acc m out) as (m1 & -> & Hsame & Hother).
    destruct (decide (t = out)) as [->|Hne].
    + rewrite Ht in Hsame.
      change (Some (c0, c1, g) ≫= visited_entry)
        with (visited_entry (c0, c1, g)) in Hsame.
      unfold visited_entry in Hsame.
      destruct (Nat.eqb_spec (S c0) (grad_operation_inputs g)) as [He|_]; [lia|].
      destruct (IH (acc ++ [snd <$> m !! out]) m1 out (S c0) c1 g Hsame)
        as (c0' & H' & Hle); [lia|].
      exists c0'. split; [exact H'|lia].
    + rewrite <- (Hother t Hne) in Ht.
      apply (IH (acc ++ [snd <$> m !! out]) m1 t c0 c1 g Ht Hc).
Qed.

(** An entry whose first counter has reached the number of inputs of the
    operation behind its gradient without being removed is never removed:
    every later visit keeps it, with the same gradient. *)
Theorem overdue_entry_never_removed (ops : list Operation) (m : GradientMap)
    (t c0 c1 : nat) (g : GradTensor) :
  m !! t = Some (c0, c1, g) ->
  (grad_operation_inputs g <= c0)%nat ->
  exists c0',
    foldl (fun m op => (collect_grad_outputs op m).2) m ops !! t
    = Some (c0', c1, g)
    /\ (c0 <= c0')%nat.
Proof.
  revert m c0. induction ops as [|op ops IH]; intros m c0 Ht Hc.
  - exists c0. auto.
  - simpl.
    destruct (collect_keeps_overdue (op_outputs op) [] m t c0 c1 g Ht Hc)
      as (c0a & Ha & Hle).
    destruct (IH _ c0a Ha) as (c0' & H' & Hle'); [lia|].
    exists c0'. split; [exact H'|lia].
Qed.

End GradientMapProperties.

Lemma no_entry_no_visit_witness :
  let op := {| op_inputs := [1; 2]%nat; op_outputs := [3; 4]%nat;
               has_gradient := true |} in
  collect_grad_outputs op (initial_gradients 9 {| grad_id := 0; grad_operation_inputs := 0 |})
  = ([None; None], initial_gradients 9 {| grad_id := 0; grad_operation_inputs := 0 |}).
Proof.
  intros op.
  apply (no_entry_no_visit op _ ∅).
  repeat constructor.
Defined.

Lemma overdue_entry_never_removed_witness :
  let seed := {| grad_id := 7; grad_operation_inputs := 0 |} in
  let op := {| op_inputs := [1; 2]%nat; op_outputs := [3%nat]; has_gradient := true |} in
  exists c0',
    foldl (fun m op => (collect_grad_outputs op m).2) (initial_gradients 3 seed)
          [op; op; op] !! 3%nat
    = Some (c0', 0%nat, seed).
Proof.
  intros seed op.
  destruct (overdue_entry_never_removed [op; op; op] (initial_gradients 3 seed)
              3 0 0 seed) as (c0' & H & _).
  - reflexivity.
  - simpl. lia.
  - exists c0'. exact H.
Defined.

(** * Properties of the training loop helpers and the input pipeline *)

(** ** CapturedObject *)

Section Captured.
Context {A : Type}.
Import CapturedObject.

Lemma after_captures_cons (o : A) (os : list A) :
  after_captures (o :: os) = {| _object := Some o; _captured := true |}.
Proof.
  unfold after_captures. simpl.
  induction os as [|o' os IH]; [reflexivity|]. simpl. exact IH.
Qed.

(** An object captures once: [get] raises before any capture; after any
    number of attempts it returns the first object offered, and every further
    capture raises. *)
Theorem captured_once (o : A) (os : list A) :
  get (@init A) = raised "RuntimeError"
  /\ get (after_captures (o :: os)) = returned (Some o)
  /\ forall o', capture (after_captures (o :: os)) o' = raised "RuntimeError".
Proof.
  split; [reflexivity|]. rewrite after_captures_cons. split; reflexivity.
Qed.

End Captured.

(** ** split_files *)

Section SliceProperties.
Context {A : Type}.
Implicit Types (l : list A).

Lemma slice_from_lookup fuel : forall l start step k,
  (k < fuel)%nat ->
  slice_from fuel l start step !! k = l !! (start + k * step)%nat.
Proof.
  induction fuel as [|fuel IH]; intros l start step k Hk; [lia|].
  simpl. destruct (l !! start) as [x|] eqn:Hx.
  - destruct k as [|k]; simpl.
    + now rewrite Nat.add_0_r.
    + rewrite IH by lia. f_equal. lia.
  - rewrite lookup_nil. symmetry. apply lookup_ge_None.
    apply lookup_ge_None in Hx. lia.
Qed.

Lemma slice_from_length fuel : forall l start step,
  (List.length (slice_from fuel l start step) <= fuel)%nat.
Proof.
  induction fuel as [|fuel IH]; intros l start step; simpl; [lia|].
  destruct (l !! start); simpl; [|lia]. specialize (IH l (start + step)%nat step). lia.
Qed.

(** The slice, read by index: entry [k] is entry [start + k * step]. *)
Lemma slice_lookup l start step k :
  (0 < step)%nat ->
  slice_from (List.length l) l start step !! k = l !! (start + k * step)%nat.
Proof.
  intros Hstep. destruct (decide (k < List.length l)%nat) as [Hk|Hk].
  - now apply slice_from_lookup.
  - rewrite (proj2 (lookup_ge_None _ _)).
    + symmetry. apply lookup_ge_None. nia.
    + pose proof (slice_from_length (List.length l) l start step). lia.
Qed.

Lemma slice_cons_S x l start step :
  (0 < step)%nat ->
  slice_from (List.length (x :: l)) (x :: l) (S start) step
  = slice_from (List.length l) l start step.
Proof.
  intros Hstep. apply list_eq. intros k.
  rewrite !slice_lookup by exact Hstep. reflexivity.
Qed.

Lemma slice_cons_0 x l step :
  (0 < step)%nat ->
  slice_from (List.length (x :: l)) (x :: l) 0 step
  = x :: slice_from (List.length l) l (step - 1) step.
Proof.
  intros Hstep. apply list_eq. intros [|k].
  - rewrite slice_lookup by exact Hstep. reflexivity.
  - simpl (( _ :: _) !! S k). rewrite !slice_lookup by exact Hstep.
    replace (0 + S k * step)%nat with (S (step - 1 + k * step)) by nia.
    reflexivity.
Qed.

Lemma slices_cover l step :
  (0 < step)%nat ->
  List.concat (map (fun i => slice_from (List.length l) l i step) (seq 0 step)) ≡ₚ l.
Proof.
  intros Hstep. induction l as [|x l IH].
  - clear Hstep. induction (seq 0 step) as [|i rest IHs]; [reflexivity|].
    simpl. exact IHs.
  - destruct step as [|c]; [lia|].
    set (sl := fun i => slice_from (List.length (x :: l)) (x :: l) i (S c)).
    set (sl' := fun i => slice_from (List.length l) l i (S c)) in *.
    assert (H0 : sl 0%nat = x :: sl' c).
    { unfold sl, sl'. rewrite (slice_cons_0 x l (S c)) by lia.
      now replace (S c - 1)%nat with c by lia. }
    assert (HS : forall i, sl (S i) = sl' i)
      by (intros i; unfold sl, sl'; apply slice_cons_S; lia).
    change (seq 0 (S c)) with (0%nat :: seq 1 c).
    rewrite <- seq_shift, map_cons, map_map, H0.
    rewrite (map_ext _ sl' HS).
    change (List.concat ((x :: sl' c) :: map sl' (seq 0 c)))
      with (x :: (sl' c ++ List.concat (map sl' (seq 0 c)))).
    constructor.
    rewrite <- IH by lia.
    rewrite seq_S, map_app, concat_app. simpl. rewrite app_nil_r.
    apply Permutation_app_comm.
Qed.

End SliceProperties.

Section SplitFilesProperties.
Variable shuffle : Z -> list string -> list string.

(** The workers share out the files: an empty glob or a zero count raises;
    otherwise worker [i] of [c] gets the files at positions [i], [i + c],
    [i + 2c], ... of the ordered list (the sorted names, shuffled when the
    seed is not zero), and the lists of the workers [0 .. c-1] together hold
    every globbed file exactly once. *)
Theorem split_files_partition (filenames : list string) (slice_count : nat)
    (seed : Z) :
  filenames <> [] ->
  (0 < slice_count)%nat ->
  (seed <> 0%Z -> shuffle seed (sorted filenames) ≡ₚ sorted filenames) ->
  let files := if (seed =? 0)%Z then sorted filenames
               else shuffle seed (sorted filenames) in
  exists slices : nat -> list string,
    (forall i, split_files shuffle filenames i slice_count seed = returned (slices i))
    /\ (forall i k, slices i !! k = files !! (i + k * slice_count)%nat)
    /\ List.concat (map slices (seq 0 slice_count)) ≡ₚ filenames.
Proof.
  intros Hne Hc Hsh files.
  exists (fun i => slice_from (List.length files) files i slice_count).
  split; [|split].
  - intros i. unfold split_files.
    destruct filenames as [|f fs]; [contradiction|].
    destruct slice_count; [lia|]. reflexivity.
  - intros i k. now apply slice_lookup.
  - rewrite (slices_cover files slice_count Hc). unfold files, sorted.
    destruct (Z.eqb_spec seed 0) as [|Hs].
    + apply merge_sort_Permutation.
    + rewrite (Hsh Hs). apply merge_sort_Permutation.
Qed.

(** The two ways [split_files] raises. *)
Lemma split_files_raises (filenames : list string) (i c : nat) (seed : Z) :
  split_files shuffle [] i c seed = raised "ValueError"
  /\ split_files shuffle filenames i 0 seed = raised "ValueError".
Proof. split; [reflexivity|]. now destruct filenames. Qed.

End SplitFilesProperties.

Lemma split_files_partition_witness :
  exists mine others,
    split_files (fun _ l => rev l) ["c"; "a"; "d"; "b"; "e"] 1 2 0 = returned mine
    /\ split_files (fun _ l => rev l) ["c"; "a"; "d"; "b"; "e"] 0 2 0 = returned others
    /\ mine !! 0%nat = Some "b" /\ mine !! 1%nat = Some "d"
    /\ others ++ mine ≡ₚ ["c"; "a"; "d"; "b"; "e"].
Proof.
  destruct (split_files_partition (fun _ l => rev l) ["c"; "a"; "d"; "b"; "e"] 2 0)
    as (s & Hs & Hk & Hp); [discriminate|lia|congruence|].
  exists (s 1%nat), (s 0%nat).
  split; [apply Hs|]. split; [apply Hs|].
  split; [rewrite Hk; reflexivity|]. split; [rewrite Hk; reflexivity|].
  simpl in Hp. now rewrite app_nil_r in Hp.
Defined.

(** ** _get_skip_index *)

Section SkipIndexProperties.
Variable number : string -> option Z.
Variable by_iteration : string -> Z.
Variable all_files : list string.
Variable n_batches : Z.

Local Abbreviation docs := (documents number by_iteration all_files).
Local Abbreviation total := (total_documents number by_iteration all_files).
Local Abbreviation counts_known := (counts_known number by_iteration all_files).
Local Abbreviation unlabelled :=
  (fun f : string => negb (bool_decide (is_Some (number f)))).

Lemma total_app l1 l2 : total (l1 ++ l2) = total l1 + total l2.
Proof.
  unfold total_documents. induction l1 as [|f l1 IH]; simpl; [lia|].
  rewrite IH. lia.
Qed.

Lemma find_first_unlabelled seen f rest :
  all_files = seen ++ f :: rest ->
  Forall (fun f => is_Some (number f)) seen ->
  number f = None ->
  List.find unlabelled all_files = Some f.
Proof.
  intros -> Hseen Hf. induction Hseen as [|x seen Hx _ IH]; simpl.
  - rewrite Hf. reflexivity.
  - destruct Hx as [k ->]. simpl. exact IH.
Qed.

(** One item: the sum grows by the documents of the file, and the loop
    breaks exactly when the sum passes [n_batches]. *)
Lemma skip_body_spec st seen f rest count :
  all_files = seen ++ f :: rest ->
  counts_known st seen ->
  let '(st', broke) := skip_body number by_iteration n_batches st count f in
  cumsum st' = cumsum st + docs f
  /\ counts_known st' (seen ++ [f])
  /\ (broke = true ->
      n_batches < cumsum st'
      /\ skip_idx st' = Some count
      /\ remainder st' = Some (n_batches - cumsum st))
  /\ (broke = false -> cumsum st' <= n_batches).
Proof.
  intros Hfiles Hknown. unfold skip_body.
  assert (Hstep : exists cum glob,
             match number f with
             | Some k => (cumsum st + k, global_n_documents st)
             | None =>
                 match global_n_documents st with
                 | None => (cumsum st + by_iteration f, Some (by_iteration f))
                 | Some g => (cumsum st + g, Some g)
                 end
             end = (cum, glob)
             /\ cum = cumsum st + docs f
             /\ match glob with
                | Some g => exists f0, List.find unlabelled all_files = Some f0
                                       /\ g = by_iteration f0
                | None => Forall (fun f => is_Some (number f)) (seen ++ [f])
                end).
  { unfold counts_known in Hknown. unfold documents.
    destruct (number f) as [k|] eqn:Hk.
    - do 2 eexists. split; [reflexivity|]. split; [reflexivity|].
      destruct (global_n_documents st); [exact Hknown|].
      apply Forall_app. split; [exact Hknown|]. repeat constructor. eauto.
    - destruct (global_n_documents st) as [g|].
      + destruct Hknown as (f0 & Hf0 & ->).
        do 2 eexists. split; [reflexivity|]. rewrite Hf0. split; [reflexivity|].
        eauto.
      + rewrite (find_first_unlabelled seen f rest Hfiles Hknown Hk).
        do 2 eexists. split; [reflexivity|]. split; [reflexivity|]. eauto. }
  destruct Hstep as (cum & glob & -> & Hcum & Hglob).
  destruct (Z.eqb_spec cum n_batches) as [He|Hne].
  - simpl. unfold counts_known. simpl. repeat split; try assumption;
      try discriminate. lia.
  - destruct (Z.ltb_spec n_batches cum) as [Hlt|Hge].
    + simpl. unfold counts_known. simpl. repeat split; try assumption;
        try discriminate.
    + simpl. unfold counts_known. simpl. repeat split; try assumption;
        try discriminate. lia.
Qed.

(** One pass from the files [seen] on: either it breaks at a file [i] with
    the remainder against the sum before that file, or it ends with the sum
    of all files added and still not beyond [n_batches]. *)
Lemma skip_pass_spec pending : forall seen st base,
  all_files = seen ++ pending ->
  counts_known st seen ->
  cumsum st = base + total seen ->
  cumsum st <= n_batches ->
  let '(st', broke) :=
    skip_pass number by_iteration n_batches
              (zip (seq (List.length seen) (List.length pending)) pending) st in
  if broke
  then exists i fi r,
         skip_idx st' = Some i /\ remainder st' = Some r
         /\ all_files !! i = Some fi
         /\ 0 <= r < docs fi
         /\ n_batches = base + total (take i all_files) + r
  else cumsum st' = base + total all_files
       /\ cumsum st' <= n_batches
       /\ counts_known st' [].
Proof.
  induction pending as [|f pending IH]; intros seen st base Hfiles Hknown Hcum Hle.
  - simpl. rewrite app_nil_r in Hfiles. subst seen.
    split; [exact Hcum|]. split; [exact Hle|].
    unfold counts_known in *. destruct (global_n_documents st); [exact Hknown|constructor].
  - simpl.
    pose proof (skip_body_spec st seen f pending (List.length seen) Hfiles Hknown)
      as Hbody.
    destruct (skip_body number by_iteration n_batches st (List.length seen) f)
      as [st1 broke].
    destruct Hbody as (Hc1 & Hk1 & Hbrk & Hcont).
    destruct broke.
    + destruct (Hbrk eq_refl) as (Hlt & Hi & Hr).
      exists (List.length seen), f, (n_batches - cumsum st).
      split; [exact Hi|]. split; [exact Hr|].
      split; [rewrite Hfiles; now apply list_lookup_middle|].
      split; [lia|].
      assert (Ht : take (List.length seen) all_files = seen)
        by (rewrite Hfiles; apply take_app_length).
      rewrite Ht. lia.
    + specialize (IH (seen ++ [f]) st1 base).
      rewrite length_app in IH. simpl in IH. rewrite Nat.add_1_r in IH.
      apply IH.
      * now rewrite <- app_assoc.
      * exact Hk1.
      * rewrite total_app. unfold total_documents at 2. simpl. lia.
      * now apply Hcont.
Qed.

Lemma skip_cycle_spec fuel : forall st q,
  counts_known st [] ->
  0 <= q ->
  cumsum st = q * total all_files ->
  cumsum st <= n_batches ->
  n_batches - cumsum st < Z.of_nat fuel * total all_files ->
  exists st' i fi r q',
    skip_cycle number by_iteration fuel n_batches all_files st = Some st'
    /\ skip_idx st' = Some i /\ remainder st' = Some r
    /\ all_files !! i = Some fi
    /\ 0 <= r < docs fi
    /\ 0 <= q'
    /\ n_batches = q' * total all_files + total (take i all_files) + r.
Proof.
  induction fuel as [|fuel IH]; intros st q Hknown Hq Hcum Hle Hfuel; [lia|].
  simpl. unfold enumerate.
  pose proof (skip_pass_spec all_files [] st (cumsum st) eq_refl Hknown) as Hpass.
  simpl in Hpass.
  destruct (skip_pass number by_iteration n_batches
              (zip (seq 0 (List.length all_files)) all_files) st) as [st1 broke].
  specialize (Hpass ltac:(unfold total_documents; simpl; lia) Hle).
  destruct broke.
  - destruct Hpass as (i & fi & r & Hi & Hr & Hfi & Hrange & Hn).
    exists st1, i, fi, r, q. repeat split; try assumption; try lia.
  - destruct Hpass as (Hc1 & Hle1 & Hk1).
    apply (IH st1 (q + 1)); try assumption; lia.
Qed.

Lemma skip_pass_no_break st :
  counts_known st [] ->
  cumsum st = 0 -> 0 <= n_batches ->
  (forall f, f ∈ all_files -> docs f = 0) ->
  exists st',
    skip_pass number by_iteration n_batches (enumerate all_files) st = (st', false)
    /\ counts_known st' [] /\ cumsum st' = 0.
Proof.
  intros Hknown Hcum Hn Hzero.
  assert (Htotal : forall l, (forall f, f ∈ l -> f ∈ all_files) -> total l = 0).
  { induction l as [|f l IH]; intros Hl; [reflexivity|].
    unfold total_documents. simpl. rewrite (Hzero f) by (apply Hl; left).
    fold (total l). rewrite IH; [reflexivity|]. intros g Hg. apply Hl. now right. }
  pose proof (skip_pass_spec all_files [] st 0 eq_refl Hknown) as Hpass.
  unfold enumerate. simpl in Hpass.
  destruct (skip_pass number by_iteration n_batches
              (zip (seq 0 (List.length all_files)) all_files) st) as [st1 broke].
  specialize (Hpass ltac:(unfold total_documents; simpl; lia) ltac:(lia)).
  destruct broke.
  - destruct Hpass as (i & fi & r & _ & _ & Hfi & Hrange & _).
    rewrite (Hzero fi) in Hrange by (eapply list_elem_of_lookup_2; exact Hfi). lia.
  - destruct Hpass as (Hc & _ & Hk). exists st1. repeat split; [exact Hk|].
    rewrite Hc, Htotal by auto. reflexivity.
Qed.

(** When every file counts zero documents, the loop never ends: whatever
    the fuel, it is still running. *)
Theorem get_skip_index_never_returns (fuel : nat) :
  all_files <> [] ->
  0 <= n_batches ->
  (forall f, f ∈ all_files -> docs f = 0) ->
  _get_skip_index number by_iteration fuel all_files n_batches = None.
Proof.
  intros Hne Hn Hzero. unfold _get_skip_index.
  destruct all_files as [|f0 fs] eqn:Hfiles; [contradiction|].
  rewrite <- Hfiles in *.
  assert (Hloop : forall st, counts_known st [] -> cumsum st = 0 ->
                    skip_cycle number by_iteration fuel n_batches all_files st = None).
  { induction fuel as [|k IH]; intros st Hk Hc; [reflexivity|].
    simpl. destruct (skip_pass_no_break st Hk Hc Hn Hzero) as (st' & -> & Hk' & Hc').
    now apply IH. }
  rewrite Hloop; [reflexivity| |reflexivity].
  constructor.
Qed.

(** When some file holds a document, the loop ends once the fuel covers
    [n_batches / total + 1] passes, and it returns the file [i] and the
    offset [r] at which document number [n_batches] of the endlessly
    repeated file list lies: after some whole passes and the files before
    [i], [r] documents into file [i]. *)
Theorem get_skip_index_locates (fuel : nat) :
  0 <= n_batches ->
  0 < total all_files ->
  n_batches < Z.of_nat fuel * total all_files ->
  exists i fi r q,
    _get_skip_index number by_iteration fuel all_files n_batches
    = Some (returned (i, r))
    /\ all_files !! i = Some fi
    /\ 0 <= r < docs fi
    /\ 0 <= q
    /\ n_batches = q * total all_files + total (take i all_files) + r.
Proof.
  intros Hn Htotal Hfuel. unfold _get_skip_index.
  destruct all_files as [|f0 fs] eqn:Hfiles; [unfold total_documents in Htotal; simpl in Htotal; lia|].
  rewrite <- Hfiles in *.
  destruct (skip_cycle_spec fuel
              {| prev_cumsum := 0; cumsum := 0; global_n_documents := None;
                 skip_idx := None; remainder := None |} 0)
    as (st' & i & fi & r & q' & Hc & Hi & Hr & Hfi & Hrange & Hq & Hsum);
    try (simpl; lia).
  { constructor. }
  exists i, fi, r, q'. rewrite Hc. simpl. rewrite Hi, Hr.
  repeat split; try assumption; lia.
Qed.

End SkipIndexProperties.

(** File "a" holds 3 documents by its name; "b" and "c" have no count in
    their names and are taken to hold the 4 documents found in "b". *)
Lemma get_skip_index_locates_witness :
  let number := fun f : string => if String.eqb f "a" then Some 3 else None in
  exists i r,
    _get_skip_index number (fun _ => 4) 2 ["a"; "b"; "c"] 15 = Some (returned (i, r))
    /\ 0 <= r.
Proof.
  intros number.
  destruct (get_skip_index_locates number (fun _ => 4) ["a"; "b"; "c"] 15 2)
    as (i & fi & r & q & H & _ & Hr & _); [lia|reflexivity|reflexivity|].
  exists i, r. split; [exact H|lia].
Defined.

Lemma get_skip_index_never_returns_witness :
  _get_skip_index (fun _ => Some 0) (fun _ => 0) 5 ["a"; "b"] 3 = None.
Proof.
  apply get_skip_index_never_returns; [discriminate|lia|reflexivity].
Defined.

(** * The chain of optimizers as a string *)

Section ChainString.
Implicit Types (s w : string) (sep : ascii).

Lemma split_not_nil sep s : split sep s <> [].
Proof.
  destruct s as [|c s]; simpl; [discriminate|].
  destruct (Ascii.eqb c sep); [discriminate|].
  destruct (split sep s); discriminate.
Qed.

Lemma join_cons sep w words :
  words <> [] -> join sep (w :: words) = w +:+ String sep (join sep words).
Proof. destruct words; [contradiction|reflexivity]. Qed.

Lemma string_app_assoc (a b c : string) : (a +:+ b) +:+ c = a +:+ (b +:+ c).
Proof.
  induction a as [|x a IH]; [reflexivity|].
  change (String x ((a +:+ b) +:+ c) = String x (a +:+ (b +:+ c))).
  f_equal. exact IH.
Qed.

Lemma split_token sep w rest :
  sep ∉ list_ascii_of_string w ->
  split sep (w +:+ String sep rest) = w :: split sep rest.
Proof.
  induction w as [|c w IH]; intros Hw; simpl.
  - now rewrite Ascii.eqb_refl.
  - simpl in Hw. apply not_elem_of_cons in Hw as [Hc Hw].
    destruct (Ascii.eqb_spec c sep) as [->|_]; [contradiction|].
    rewrite (IH Hw). reflexivity.
Qed.

(** Splitting loses nothing: joining the tokens with the separator gives the
    string back, no token contains the separator, and there is always at
    least one token (the empty string splits into one empty token). *)
Theorem split_join_round_trip (sep : ascii) (s : string) :
  join sep (split sep s) = s
  /\ Forall (fun w => sep ∉ list_ascii_of_string w) (split sep s)
  /\ split sep s <> [].
Proof.
  split; [|split; [|apply split_not_nil]].
  - induction s as [|c s IH]; [reflexivity|]. simpl.
    destruct (Ascii.eqb_spec c sep) as [->|Hne].
    + rewrite join_cons by apply split_not_nil. simpl. now rewrite IH.
    + pose proof (split_not_nil sep s) as Hnil.
      destruct (split sep s) as [|w ws]; [contradiction|].
      destruct ws as [|w' ws].
      * simpl in *. now rewrite IH.
      * change (join sep (String c w :: w' :: ws))
          with (String c (w +:+ String sep (join sep (w' :: ws)))).
        change (join sep (w :: w' :: ws))
          with (w +:+ String sep (join sep (w' :: ws))) in IH.
        now rewrite IH.
  - induction s as [|c s IH]; simpl.
    + repeat constructor. apply not_elem_of_nil.
    + destruct (Ascii.eqb_spec c sep) as [->|Hne].
      * constructor; [apply not_elem_of_nil|exact IH].
      * destruct (split sep s) as [|w ws]; simpl.
        -- repeat constructor. simpl. apply not_elem_of_cons. split; [congruence|].
           apply not_elem_of_nil.
        -- apply Forall_cons in IH as [Hw Hws]. constructor; [|exact Hws].
           simpl. apply not_elem_of_cons. split; [congruence|exact Hw].
Qed.

End ChainString.

Section ChainOrder.
Variable OPTIMIZERS : string -> option optimizer_fn.
Variable feature_dims_used : ModelParameter -> MtfVariable -> bool.
Variable get_fan_in : ModelParameter -> MtfVariable -> list Dimension.
Variable rsqrt_eps : Q -> Q.
Variable pow_half : Q -> Q.

(** The chain runs left to right: the optimizer named by the first token
    runs on the context as given, with the rest of its token, cut at the
    colons, as arguments; its gradient and state assignments are in the
    context the optimizers of the remaining tokens run on. *)
Theorem chain_runs_left_to_right (ctx : OptimizerCtx) (name args rest : string)
    (f : optimizer_fn) :
  optimizer (params ctx) = name +:+ ":" +:+ args +:+ "-" +:+ rest ->
  ":"%char ∉ list_ascii_of_string name ->
  "-"%char ∉ list_ascii_of_string name ->
  "-"%char ∉ list_ascii_of_string args ->
  OPTIMIZERS name = Some f ->
  let first := f ctx (split ":" args) in
  run_chain OPTIMIZERS ctx
  = foldl (fun acc token => ctx ← acc; run_optimizer OPTIMIZERS ctx token)
          (Some (set_grad (append_ops ctx (state_ops first.2)) first.1))
          (split "-" rest).
Proof.
  intros Hopt Hname1 Hname2 Hargs Hf first.
  assert (Htoken : "-"%char ∉ list_ascii_of_string (name +:+ ":" +:+ args)).
  { clear -Hname2 Hargs. induction name as [|c n IH]; simpl in *.
    - apply not_elem_of_cons. split; [discriminate|exact Hargs].
    - apply not_elem_of_cons in Hname2 as [Hc Hn].
      apply not_elem_of_cons. split; [exact Hc|now apply IH]. }
  unfold run_chain. rewrite Hopt.
  replace (name +:+ ":" +:+ args +:+ "-" +:+ rest)
    with ((name +:+ ":" +:+ args) +:+ String "-" rest)
    by (now rewrite !string_app_assoc).
  rewrite (split_token "-" _ rest Htoken). simpl foldl. f_equal.
  unfold run_optimizer.
  change (name +:+ ":" +:+ args) with (name +:+ String ":" args).
  rewrite (split_token ":" name args Hname1), Hf. simpl.
  fold first. now destruct first.
Qed.

Lemma final_op_value ctx :
  update_ops (write_back feature_dims_used get_fan_in rsqrt_eps pow_half ctx)
  = update_ops ctx
    ++ [if negb (large_tensor feature_dims_used (params ctx) (var ctx))
           || negb (weight_standardisation (params ctx))
        then assign_sub SlotVar (grad ctx)
        else assign SlotVar
               (standardised get_fan_in rsqrt_eps pow_half (params ctx) (var ctx)
                             (grad ctx))].
Proof.
  unfold write_back.
  destruct (negb (large_tensor feature_dims_used (params ctx) (var ctx))
            || negb (weight_standardisation (params ctx))); reflexivity.
Qed.

(** Weight decay comes before weight standardisation: for a large tensor
    with both enabled, the value assigned is the standardisation of
    [v - (g + weight_decay * v * learning_rate)], where [g] is the gradient
    after the chain and the rezero scaling. *)
Theorem decay_before_standardisation (ctx ctx1 : OptimizerCtx) :
  run_chain OPTIMIZERS (load_grad_buffer ctx) = Some ctx1 ->
  large_tensor feature_dims_used (params ctx) (var ctx) = true ->
  (0 < weight_decay (params ctx))%Q ->
  weight_standardisation (params ctx) = true ->
  exists ctx',
    update OPTIMIZERS feature_dims_used get_fan_in rsqrt_eps pow_half ctx = Some ctx'
    /\ update_ops ctx'
       = update_ops ctx1
         ++ [assign SlotVar
               (standardised get_fan_in rsqrt_eps pow_half (params ctx) (var ctx)
                  (add (grad (rezero_scale ctx1))
                       (map (fun x => weight_decay (params ctx) * x
                                      * learning_rate ctx)%Q
                            (var_value (var ctx)))))].
Proof.
  intros Hc Hlarge Hwd Hws.
  destruct (chain_from_load OPTIMIZERS _ _ Hc) as (Hp & Hv & Hl & _).
  destruct (rezero_scale_fields ctx1) as (Hp2 & Hv2 & Ho2 & Hl2).
  eexists. split; [unfold update; rewrite Hc; reflexivity|].
  assert (Hnle : Qle_bool (weight_decay (params ctx)) 0 = false).
  { destruct (Qle_bool (weight_decay (params ctx)) 0) eqn:Hle; [|reflexivity].
    apply Qle_bool_iff in Hle. exfalso. apply (Qlt_not_le _ _ Hwd Hle). }
  set (c2 := rezero_scale ctx1) in *.
  assert (Hd : decay feature_dims_used c2
               = set_grad c2
                   (add (grad c2)
                        (map (fun x => weight_decay (params ctx) * x
                                       * learning_rate ctx)%Q
                             (var_value (var ctx))))).
  { unfold decay. rewrite Hp2, Hv2, Hp, Hv, Hlarge, Hnle, Hl2, Hl. reflexivity. }
  rewrite Hd, final_op_value. simpl params. simpl var. simpl grad. simpl update_ops.
  rewrite Hp2, Hv2, Hp, Hv, Hlarge, Hws, Ho2. reflexivity.
Qed.

End ChainOrder.

Lemma chain_runs_left_to_right_witness :
  let ctx :=
    {| params :=
         {| optimizer := "sgd:1.0:x-sgd"; rezero_lr_multiplier := 1;
            feature_dims := []; weight_decay := 0;
            weight_standardisation := false; scale_by_depth := false;
            n_blocks := 1; grad_accumulation := 1; opt_beta1 := 9 # 10;
            opt_beta2 := 99 # 100; multi_loss_strategy := "linear";
            name_to_variable := ∅ |};
       var := example_var "w"; grad := [1; 1; 1; 1]%Q; grad_buffer := None;
       update_ops := []; learning_rate := 1 |} in
  let twice : optimizer_fn :=
    fun ctx args => (multiply (inject_Z (Z.of_nat (List.length args))) (grad ctx), []) in
  run_chain (fun opt => if String.eqb opt "sgd" then Some twice else None) ctx
  = Some (set_grad ctx (multiply 0 (multiply 2 [1; 1; 1; 1]%Q))).
Proof.
  intros ctx twice.
  rewrite (chain_runs_left_to_right _ ctx "sgd" "1.0:x" "sgd" twice eq_refl).
  - reflexivity.
  - intros H. repeat (apply elem_of_cons in H as [H|H]; [discriminate|]).
    now apply elem_of_nil in H.
  - intros H. repeat (apply elem_of_cons in H as [H|H]; [discriminate|]).
    now apply elem_of_nil in H.
  - intros H. repeat (apply elem_of_cons in H as [H|H]; [discriminate|]).
    now apply elem_of_nil in H.
  - reflexivity.
Defined.

Lemma decay_before_standardisation_witness :
  let p :=
    {| optimizer := "sgd"; rezero_lr_multiplier := 1; feature_dims := [];
       weight_decay := 1 # 10; weight_standardisation := true;
       scale_by_depth := false; n_blocks := 1; grad_accumulation := 1;
       opt_beta1 := 9 # 10; opt_beta2 := 99 # 100;
       multi_loss_strategy := "linear"; name_to_variable := ∅ |} in
  exists ctx',
    update sgd_only (fun _ _ => false) (fun _ _ => []) (fun x => x) (fun x => x)
           (example_ctx p "w" [1; 1; 1; 1]%Q) = Some ctx'
    /\ exists t, update_ops ctx' = [assign SlotVar t].
Proof.
  intros p.
  destruct (decay_before_standardisation sgd_only (fun _ _ => false)
              (fun _ _ => []) (fun x => x) (fun x => x)
              (example_ctx p "w" [1; 1; 1; 1]%Q) (example_ctx p "w" [1; 1; 1; 1]%Q))
    as (ctx' & Hu & Ho); try reflexivity.
  exists ctx'. split; [exact Hu|]. eexists. exact Ho.
Defined.
